(** * Wake-on-LAN magic packets: codec and broadcast transport

    A shallow embedding of package [wol] (magic-packet construction,
    validation, and the UDP broadcast send) together with the properties
    its specification states about it.

    Byte slices are [list Byte.byte].  Slice expressions that Go checks at
    run time return [option] ([None] is the run-time panic).  The network is
    an explicit trace of the calls made on package [net], with the platform's
    answers supplied by a [Platform] record.

    Package [api] follows: the device list, the cache file and the HTTP
    handler, over a world of files and a log of calls, with the answers of
    [os] and [encoding/json] supplied by an [Env] record. *)

From Stdlib Require Import String Ascii.
From Stdlib Require Import List Arith ZArith Lia Bool.
From Stdlib Require Strings.Byte.
Import ListNotations.

Local Open Scope nat_scope.

(** ** The Go operations the package uses *)

Module Go.

Definition byte := Byte.byte.

(** [make([]byte, n)]: [n] zero bytes. *)
Definition make (n : nat) : list byte := repeat Byte.x00 n.

(** [copy(dst, src)]: the contents of [dst] afterwards.  Go copies
    [min(len(dst), len(src))] elements and leaves the rest of [dst]. *)
Definition copy (dst src : list byte) : list byte :=
  let n := Nat.min (length dst) (length src) in
  firstn n src ++ skipn n dst.

(** [copy(dst[off:], src)]: the contents of [dst] afterwards; the sub-slice
    aliases [dst] from [off] on, the first [off] bytes are untouched.  The
    slice expression needs [off <= len(dst)]; [NewMagicPacket], its one user,
    meets it (lemma [NewMagicPacket_slice_in_bounds]). *)
Definition copy_from (dst : list byte) (off : nat) (src : list byte) : list byte :=
  firstn off dst ++ copy (skipn off dst) src.

(** [b[lo:hi]], with the run-time bounds check ([None] is the panic).
    A slice's capacity is taken to be its length, the least Go guarantees:
    a [Some] here is what Go returns for every capacity, while a [None] is a
    panic Go has only when the capacity, too, is below [hi]. *)
Definition slice (b : list byte) (lo hi : nat) : option (list byte) :=
  if (lo <=? hi) && (hi <=? length b)
  then Some (firstn (hi - lo) (skipn lo b))
  else None.

(** [bytes.Equal]. *)
Fixpoint bytes_Equal (a b : list byte) : bool :=
  match a, b with
  | [], [] => true
  | x :: a', y :: b' => Byte.eqb x y && bytes_Equal a' b'
  | _, _ => false
  end.

(** [bytes.Repeat(b, count)]: [count] copies of [b], concatenated. *)
Definition bytes_Repeat (b : list byte) (count : nat) : list byte :=
  concat (repeat b count).

(** The slice [s] with byte [i] replaced by [v], as [s[i] = v] leaves it.
    Go panics when [i] is out of range; here [s] is then returned as it is. *)
Fixpoint set_index (s : list byte) (i : nat) (v : byte) : list byte :=
  match s, i with
  | [], _ => []
  | _ :: s', 0 => v :: s'
  | x :: s', S i' => x :: set_index s' i' v
  end.

End Go.

Import Go.

(** Sequencing of operations that may panic. *)
Notation "x <- a ;; b" :=
  (match a with Some x => b | None => None end)
    (at level 61, a at next level, right associativity).

(** ** The codec *)

Definition hwAddrN : nat := 16.

Definition bcastAddr : list byte :=
  [Byte.xff; Byte.xff; Byte.xff; Byte.xff; Byte.xff; Byte.xff].

Definition bcastAddrOff : nat := length bcastAddr.

(** [net.HardwareAddr] and [MagicPacket] are both [[]byte]. *)
Definition HardwareAddr := list byte.
Definition MagicPacket := list byte.

(** [func (p MagicPacket) HardwareAddr() net.HardwareAddr] *)
Definition MagicPacket_HardwareAddr (p : MagicPacket) : option HardwareAddr :=
  slice p bcastAddrOff (bcastAddrOff * 2).

(** [func NewMagicPacket(hwAddr net.HardwareAddr) MagicPacket] *)
Definition NewMagicPacket (hwAddr : HardwareAddr) : MagicPacket :=
  let p := make (bcastAddrOff + hwAddrN * length hwAddr) in
  let p := copy p bcastAddr in
  let p := copy_from p bcastAddrOff (bytes_Repeat hwAddr hwAddrN) in
  p.

(** [func IsMagicPacket(b []byte) bool] *)
Definition IsMagicPacket (b : list byte) : option bool :=
  if negb (length b =? 102) then Some false else
  head6 <- slice b 0 6 ;;
  if negb (bytes_Equal head6 bcastAddr) then Some false else
  hwAddr <- MagicPacket_HardwareAddr b ;;
  rest <- slice b bcastAddrOff (length b) ;;
  Some (bytes_Equal rest (bytes_Repeat hwAddr hwAddrN)).

(** ** Errors *)

(** The [error] values that can reach a caller of the package. *)
Inductive error : Type :=
| ErrShortWrite                    (** [io.ErrShortWrite] *)
| AddrError (Err Addr : string)    (** [*net.AddrError], as [net.ParseMAC] returns *)
| Errorf (msg : string)            (** the value of [fmt.Errorf], formatted *)
| NetError (msg : string).         (** an error of the platform's network stack *)

(** The [Error()] method. *)
Definition Error (e : error) : string :=
  match e with
  | ErrShortWrite => "short write"
  | AddrError err addr =>
      if (addr =? "")%string then err
      else ("address " ++ addr ++ ": " ++ err)%string
  | Errorf msg => msg
  | NetError msg => msg
  end.

(** [strings.Contains(s, sub)], as a proposition. *)
Definition contains (s sub : string) : Prop :=
  exists pre post : string, s = (pre ++ sub ++ post)%string.

Definition is_nil {A : Type} (x : option A) : bool :=
  match x with None => true | Some _ => false end.

(** ** Addresses *)

(** A [net.IP]; [None] is the nil slice. *)
Definition IP := option (list byte).

(** [net.IPv4(a, b, c, d)]: the 16-byte form of an IPv4 address. *)
Definition IPv4 (a b c d : byte) : IP :=
  Some (repeat Byte.x00 10 ++ [Byte.xff; Byte.xff] ++ [a; b; c; d]).

(** [net.IPv4bcast], the limited broadcast address 255.255.255.255. *)
Definition IPv4bcast : IP := IPv4 Byte.xff Byte.xff Byte.xff Byte.xff.

(** [net.UDPAddr]. *)
Record UDPAddr : Type := { addr_IP : IP; Port : Z; Zone : string }.

(** A [*net.UDPConn]: the association [net.DialUDP] returned. *)
Record UDPConn : Type := { LocalAddr : option UDPAddr; RemoteAddr : UDPAddr }.

(** ** The network, as the package sees it *)

(** What the package asks of [net], each call with the answer it got. *)
Inductive event : Type :=
| EvDialUDP (network : string) (laddr : option UDPAddr) (raddr : UDPAddr)
            (err : option error)
| EvWrite (c : UDPConn) (p : list byte) (n : Z) (err : option error)
| EvClose (c : UDPConn) (err : option error).

(** The answers of the parsers of package [net] and of the platform's
    sockets.  [dial] answers [None] when the association is opened; [write]
    answers the byte count and the error; [close] the error. *)
Record Platform : Type := {
  ParseMAC : string -> error + HardwareAddr;
  ParseIP : string -> IP;
  dial : option UDPAddr -> UDPAddr -> option error;
  write : UDPConn -> list byte -> Z * option error;
  close : UDPConn -> option error
}.

(** Computations that call the network: they extend the trace of events. *)
Definition Net (A : Type) : Type := list event -> A * list event.

Definition ret {A : Type} (a : A) : Net A := fun t => (a, t).

Definition bind {A B : Type} (m : Net A) (k : A -> Net B) : Net B :=
  fun t => let (a, t') := m t in k a t'.

Notation "'do' x <- m ; k" := (bind m (fun x => k))
  (at level 10, x name, m at level 100, k at level 200).

Section Transport.

Variable P : Platform.

(** [net.DialUDP(network, laddr, raddr)] *)
Definition net_DialUDP (network : string) (laddr : option UDPAddr)
           (raddr : UDPAddr) : Net (error + UDPConn) :=
  fun t =>
    let err := dial P laddr raddr in
    (match err with
     | Some e => inl e
     | None => inr {| LocalAddr := laddr; RemoteAddr := raddr |}
     end,
     t ++ [EvDialUDP network laddr raddr err]).

(** [conn.Write(p)] *)
Definition conn_Write (c : UDPConn) (p : list byte) : Net (Z * option error) :=
  fun t => let r := write P c p in (r, t ++ [EvWrite c p (fst r) (snd r)]).

(** [conn.Close()] *)
Definition conn_Close (c : UDPConn) : Net (option error) :=
  fun t => let err := close P c in (err, t ++ [EvClose c err]).

(** [func Wake(src net.IP, hwAddr net.HardwareAddr) error] *)
Definition Wake (src : IP) (hwAddr : HardwareAddr) : Net (option error) :=
  let laddr :=
    if negb (is_nil src)
    then Some {| addr_IP := src; Port := 0; Zone := "" |}
    else None in
  let raddr := {| addr_IP := IPv4bcast; Port := 9; Zone := "" |} in
  do r <- net_DialUDP "udp" laddr raddr;
  match r with
  | inl err => ret (Some err)
  | inr conn =>
      let p := NewMagicPacket hwAddr in
      do w <- conn_Write conn p;
      let (n, err) := w in
      if is_nil err && (n <? Z.of_nat (length p))%Z
      then ret (Some ErrShortWrite)
      else
        do err1 <- conn_Close conn;
        match err1 with
        | Some e1 => ret (Some e1)
        | None => ret err
        end
  end.

(** [func WakeString(srcIP, macAddr string) error] *)
Definition WakeString (srcIP macAddr : string) : Net (option error) :=
  match ParseMAC P macAddr with
  | inl err => ret (Some err)
  | inr hwAddr =>
      let nonempty := negb (srcIP =? "")%string in
      let src : IP := if nonempty then ParseIP P srcIP else None in
      if nonempty && is_nil src
      then ret (Some (Errorf ("invalid ip: " ++ srcIP)%string))
      else Wake src hwAddr
  end.

End Transport.

(** ** Reading a trace *)

(** Associations opened by a successful [net.DialUDP]. *)
Fixpoint opened (t : list event) : nat :=
  match t with
  | [] => 0
  | EvDialUDP _ _ _ None :: t' => S (opened t')
  | _ :: t' => opened t'
  end.

(** Calls of [Close]. *)
Fixpoint closed (t : list event) : nat :=
  match t with
  | [] => 0
  | EvClose _ _ :: t' => S (closed t')
  | _ :: t' => closed t'
  end.

(** The datagrams handed to the platform, each with its association. *)
Fixpoint datagrams (t : list event) : list (UDPConn * list byte) :=
  match t with
  | [] => []
  | EvWrite c p _ _ :: t' => (c, p) :: datagrams t'
  | _ :: t' => datagrams t'
  end.

(** The associations asked of [net.DialUDP]. *)
Fixpoint dials (t : list event) : list (string * option UDPAddr * UDPAddr) :=
  match t with
  | [] => []
  | EvDialUDP nw l r _ :: t' => (nw, l, r) :: dials t'
  | _ :: t' => dials t'
  end.

(** The addresses [Wake] hands to [net.DialUDP], and the association it
    gets back, named for the statements below. *)
Definition wake_laddr (src : IP) : option UDPAddr :=
  if negb (is_nil src) then Some {| addr_IP := src; Port := 0; Zone := "" |} else None.

Definition wake_raddr : UDPAddr :=
  {| addr_IP := IPv4bcast; Port := 9; Zone := "" |}.

Definition wake_conn (src : IP) : UDPConn :=
  {| LocalAddr := wake_laddr src; RemoteAddr := wake_raddr |}.

(** ** Sample inputs and platforms *)

Definition mac_aabbccddeeff : HardwareAddr :=
  [Byte.xaa; Byte.xbb; Byte.xcc; Byte.xdd; Byte.xee; Byte.xff].

(** A parser that knows one hardware address and answers any other text
    the way [net.ParseMAC] does. *)
Definition sample_ParseMAC (s : string) : error + HardwareAddr :=
  if (s =? "aa:bb:cc:dd:ee:ff")%string then inr mac_aabbccddeeff
  else inl (AddrError "invalid MAC address" s).

(** A parser that knows one IP address and answers nil to any other text. *)
Definition sample_ParseIP (s : string) : IP :=
  if (s =? "192.168.1.10")%string
  then IPv4 Byte.xc0 Byte.xa8 Byte.x01 Byte.x0a
  else None.

(** A platform on which dialling succeeds, and writing and closing answer
    as given. *)
Definition sample_platform (w : list byte -> Z * option error)
           (c : option error) : Platform :=
  {| ParseMAC := sample_ParseMAC;
     ParseIP := sample_ParseIP;
     dial := fun _ _ => None;
     write := fun _ p => w p;
     close := fun _ => c |}.

(** Everything succeeds. *)
Definition platform_ok : Platform :=
  sample_platform (fun p => (Z.of_nat (length p), None)) None.

(** The write accepts 50 bytes and reports no error. *)
Definition platform_short_write : Platform :=
  sample_platform (fun _ => (50%Z, None)) None.

(** The write fails, and so does the close. *)
Definition platform_write_and_close_fail : Platform :=
  sample_platform (fun _ => (0%Z, Some (NetError "write: network is unreachable")))
                  (Some (NetError "close: bad file descriptor")).

(** A valid packet for [mac_aabbccddeeff] with byte 20 changed to [00]. *)
Definition packet_one_byte_off : list byte :=
  set_index (NewMagicPacket mac_aabbccddeeff) 20 Byte.x00.

(** An 8-byte (EUI-64) hardware address, 02:00:5e:10:00:00:00:01, as
    [net.ParseMAC] also returns them. *)
Definition eui64_02005e1000000001 : HardwareAddr :=
  [Byte.x02; Byte.x00; Byte.x5e; Byte.x10; Byte.x00; Byte.x00; Byte.x00; Byte.x01].

(** Dialling fails: the network is unreachable. *)
Definition platform_dial_fails : Platform :=
  {| ParseMAC := sample_ParseMAC;
     ParseIP := sample_ParseIP;
     dial := fun _ _ => Some (NetError "dial udp: network is unreachable");
     write := fun _ p => (Z.of_nat (length p), None);
     close := fun _ => None |}.

(** ** Package api: the device list *)

(** [type Device struct { MACAddress string }] *)
Record Device : Type := { MACAddress : string }.

(** A [[]Device]; [None] is the nil slice, [Some []] an empty one that is
    not nil. *)
Definition DeviceSlice : Type := option (list Device).

(** The elements a [range] over the slice visits. *)
Definition elems (s : DeviceSlice) : list Device :=
  match s with Some l => l | None => [] end.

(** [append(s, v)]: never nil. *)
Definition append_Device (s : DeviceSlice) (v : Device) : DeviceSlice :=
  Some (elems s ++ [v]).

(** [type Devices struct { Devices []Device }] *)
Record Devices : Type := { Devices_Devices : DeviceSlice }.

(** The loop of [add]: [true] when it returns from inside the loop, having
    met a device with the same address. *)
Fixpoint add_loop (device : Device) (vs : list Device) : bool :=
  match vs with
  | [] => false
  | v :: vs' =>
      if (MACAddress device =? MACAddress v)%string then true
      else add_loop device vs'
  end.

(** [func (d *Devices) add(device Device)]: [d] afterwards. *)
Definition Devices_add (d : Devices) (device : Device) : Devices :=
  if add_loop device (elems (Devices_Devices d)) then d
  else {| Devices_Devices := append_Device (Devices_Devices d) device |}.

(** The loop of [remove], with [keep] as it stands. *)
Fixpoint remove_loop (device : Device) (vs : list Device) (keep : DeviceSlice)
  : DeviceSlice :=
  match vs with
  | [] => keep
  | v :: vs' =>
      if (MACAddress device =? MACAddress v)%string
      then remove_loop device vs' keep
      else remove_loop device vs' (append_Device keep v)
  end.

(** [func (d *Devices) remove(device Device)]: [d] afterwards.  [keep]
    starts as the nil slice. *)
Definition Devices_remove (d : Devices) (device : Device) : Devices :=
  {| Devices_Devices := remove_loop device (elems (Devices_Devices d)) None |}.

(** The addresses of a device list, in order. *)
Definition addresses (d : Devices) : list string :=
  map MACAddress (elems (Devices_Devices d)).

(** ** Package api: the cache file and the handler *)

(** Errors of [os], [ioutil] and [encoding/json]. *)
Inductive ferror : Type :=
| io_EOF                   (** [io.EOF] *)
| OSError (msg : string)   (** from opening or reading the file *)
| JSONError (msg : string). (** from decoding or encoding *)

Definition is_EOF (e : ferror) : bool :=
  match e with io_EOF => true | _ => false end.

(** The two flag sets the package passes to [os.OpenFile]. *)
Inductive open_flag : Type :=
| O_CREATE_RDONLY         (** [os.O_CREATE|os.O_RDONLY] *)
| O_CREATE_RDWR_TRUNC.    (** [os.O_CREATE|os.O_RDWR|os.O_TRUNC] *)

(** [type Error struct] of package api. *)
Record api_Error : Type := {
  Error_err : option ferror;
  Status : Z;
  Message : string
}.

Definition StatusNoContent : Z := 204.
Definition StatusBadRequest : Z := 400.
Definition StatusMethodNotAllowed : Z := 405.
Definition StatusInternalServerError : Z := 500.

Definition MethodGet : string := "GET".
Definition MethodPost : string := "POST".
Definition MethodDelete : string := "DELETE".

(** What the handler reads of an [*http.Request]. *)
Record Request : Type := { Method : string; Body : list byte }.

(** [type api struct]; the mutex shows as lock events in the log. *)
Record api : Type := {
  SourceIP : IP;
  StaticDir : string;
  cacheFile : string;
  wake : IP -> HardwareAddr -> Net (option error)
}.

(** What the package does besides the network calls of [wake]. *)
Inductive api_event : Type :=
| EvRLock
| EvRUnlock
| EvLock
| EvUnlock
| EvOpenFile (name : string) (flag : open_flag) (err : option ferror)
| EvReadAll (name : string) (err : option ferror)
| EvFileClose (name : string)
| EvEncode (name : string) (d : Devices) (err : option ferror)
| EvWake (src : IP) (hwAddr : HardwareAddr) (err : option error)
| EvWriteHeader (status : Z)
| EvBodyClose
| EvRespWrite (body : list byte)
| EvLogPrint (err : ferror).

(** The world of the handler: the network trace, the files by name ([None]:
    no such file) and the log of its other calls. *)
Record World : Type := {
  w_net : list event;
  w_files : string -> option (list byte);
  w_log : list api_event
}.

(** The answers of [os], [ioutil] and [encoding/json]: whether an open or a
    read fails, what [json.Unmarshal] makes of the file's bytes (the
    [Devices] field it leaves in a zero [Devices]), what an [Encode] writes
    and returns, and what the decoder makes of a request body. *)
Record Env : Type := {
  open_answer : string -> open_flag -> option (list byte) -> option ferror;
  readall_answer : list byte -> option ferror;
  json_Unmarshal : list byte -> ferror + DeviceSlice;
  json_Encode : Devices -> list byte * option ferror;
  json_Decode : list byte -> ferror + Device
}.

Definition IO (A : Type) : Type := World -> A * World.

Definition io_ret {A : Type} (a : A) : IO A := fun w => (a, w).

Definition io_bind {A B : Type} (m : IO A) (k : A -> IO B) : IO B :=
  fun w => let (a, w') := m w in k a w'.

Notation "'run' x <- m ; k" := (io_bind m (fun x => k))
  (at level 10, x name, m at level 100, k at level 200).

(** A call logged. *)
Definition emit (e : api_event) : IO unit :=
  fun w => (tt, {| w_net := w_net w; w_files := w_files w;
                   w_log := w_log w ++ [e] |}).

(** [defer cleanup] ahead of [body]: [cleanup] runs when [body] returns. *)
Definition defer {A : Type} (cleanup : IO unit) (body : IO A) : IO A :=
  run r <- body; run _ <- cleanup; io_ret r.

(** The bytes of a file, none when it does not exist. *)
Definition content (f : option (list byte)) : list byte :=
  match f with Some c => c | None => [] end.

Definition put_file (files : string -> option (list byte)) (name : string)
           (c : list byte) : string -> option (list byte) :=
  fun n => if (n =? name)%string then Some c else files n.

Section Api.

Variable P : Platform.
Variable E : Env.

(** [os.OpenFile(name, flag, 0644)].  On success [O_CREATE] makes a missing
    file exist, empty, and [O_TRUNC] empties the file. *)
Definition os_OpenFile (name : string) (flag : open_flag) : IO (option ferror) :=
  fun w =>
    let err := open_answer E name flag (w_files w name) in
    let files :=
      match err, flag, w_files w name with
      | Some _, _, _ => w_files w
      | None, O_CREATE_RDONLY, Some _ => w_files w
      | None, O_CREATE_RDONLY, None => put_file (w_files w) name []
      | None, O_CREATE_RDWR_TRUNC, _ => put_file (w_files w) name []
      end in
    (err, {| w_net := w_net w; w_files := files;
             w_log := w_log w ++ [EvOpenFile name flag err] |}).

(** [ioutil.ReadAll(f)] on the file opened as [name]. *)
Definition ioutil_ReadAll (name : string) : IO (ferror + list byte) :=
  fun w =>
    let data := content (w_files w name) in
    let err := readall_answer E data in
    (match err with Some e => inl e | None => inr data end,
     {| w_net := w_net w; w_files := w_files w;
        w_log := w_log w ++ [EvReadAll name err] |}).

(** [json.NewEncoder(f).Encode(i)]: what it writes goes after what the file
    holds. *)
Definition Encoder_Encode (name : string) (i : Devices) : IO (option ferror) :=
  fun w =>
    let (bs, err) := json_Encode E i in
    (err, {| w_net := w_net w;
             w_files := put_file (w_files w) name (content (w_files w name) ++ bs);
             w_log := w_log w ++ [EvEncode name i err] |}).

(** [a.wake(src, hwAddr)], on the network trace. *)
Definition call_wake (a : api) (src : IP) (hwAddr : HardwareAddr)
  : IO (option error) :=
  fun w =>
    let (err, t) := wake a src hwAddr (w_net w) in
    (err, {| w_net := t; w_files := w_files w;
             w_log := w_log w ++ [EvWake src hwAddr err] |}).

(** [func (a *api) readDevices()], returning a pointer to [Devices] and an
    [error]. *)
Definition readDevices (a : api) : IO (ferror + Devices) :=
  run _ <- emit EvRLock;
  defer (emit EvRUnlock)
    (run oerr <- os_OpenFile (cacheFile a) O_CREATE_RDONLY;
     match oerr with
     | Some err => io_ret (inl err)
     | None =>
         defer (emit (EvFileClose (cacheFile a)))
           (run r <- ioutil_ReadAll (cacheFile a);
            match r with
            | inl err => io_ret (inl err)
            | inr data =>
                if length data =? 0
                then io_ret (inr {| Devices_Devices := Some [] |})
                else
                  match json_Unmarshal E data with
                  | inl err => io_ret (inl err)
                  | inr ds =>
                      if is_nil ds
                      then io_ret (inr {| Devices_Devices := Some [] |})
                      else io_ret (inr {| Devices_Devices := ds |})
                  end
            end)
     end).

(** [func (a *api) writeDevice(device Device, add bool) error] *)
Definition writeDevice (a : api) (device : Device) (add : bool)
  : IO (option ferror) :=
  run r <- readDevices a;
  match r with
  | inl err => io_ret (Some err)
  | inr i =>
      run _ <- emit EvLock;
      defer (emit EvUnlock)
        (run oerr <- os_OpenFile (cacheFile a) O_CREATE_RDWR_TRUNC;
         match oerr with
         | Some err => io_ret (Some err)
         | None =>
             defer (emit (EvFileClose (cacheFile a)))
               (let i' := if add then Devices_add i device
                          else Devices_remove i device in
                run eerr <- Encoder_Encode (cacheFile a) i';
                match eerr with
                | Some err =>
                    if negb (is_EOF err) then io_ret (Some err) else io_ret None
                | None => io_ret None
                end)
         end)
  end.

(** [func (a *api) defaultHandler(w, r) (interface{}, *Error)] *)
Definition defaultHandler (a : api) (r : Request)
  : IO (option Devices * option api_Error) :=
  defer (emit EvBodyClose)
    (if (Method r =? MethodGet)%string then
       run res <- readDevices a;
       match res with
       | inl err =>
           io_ret (None, Some {| Error_err := Some err;
                                 Status := StatusInternalServerError;
                                 Message := "Could not unmarshal JSON" |})
       | inr i => io_ret (Some i, None)
       end
     else
       let add := (Method r =? MethodPost)%string in
       let remove := (Method r =? MethodDelete)%string in
       if add || remove then
         match json_Decode E (Body r) with
         | inl _ =>
             io_ret (None, Some {| Error_err := None;
                                   Status := StatusBadRequest;
                                   Message := "Malformed JSON" |})
         | inr device =>
             run stop <-
               (if add then
                  match ParseMAC P (MACAddress device) with
                  | inl _ =>
                      io_ret (Some {| Error_err := None;
                                      Status := StatusBadRequest;
                                      Message := ("Invalid MAC address: "
                                                  ++ MACAddress device)%string |})
                  | inr macAddress =>
                      run werr <- call_wake a (SourceIP a) macAddress;
                      match werr with
                      | Some _ =>
                          io_ret (Some {| Error_err := None;
                                          Status := StatusBadRequest;
                                          Message := ("Failed to wake device with address "
                                                      ++ MACAddress device)%string |})
                      | None => io_ret None
                      end
                  end
                else io_ret None);
             match stop with
             | Some e => io_ret (None, Some e)
             | None =>
                 run werr <- writeDevice a device add;
                 match werr with
                 | Some err =>
                     io_ret (None, Some {| Error_err := Some err;
                                           Status := StatusInternalServerError;
                                           Message := "Could not unmarshal JSON" |})
                 | None =>
                     run _ <- emit (EvWriteHeader StatusNoContent);
                     io_ret (None, None)
                 end
             end
         end
       else
         io_ret (None, Some {| Error_err := None;
                               Status := StatusMethodNotAllowed;
                               Message := ("Invalid method " ++ Method r
                                           ++ ", must be " ++ MethodGet
                                           ++ " or " ++ MethodPost)%string |})).

(** [func New(cacheFile string) *api]: the zero [api] but for the file name
    and [wake], which is [wol.Wake]. *)
Definition New (cacheFile : string) : api :=
  {| SourceIP := None; StaticDir := ""; cacheFile := cacheFile; wake := Wake P |}.

End Api.

(** A world with more in its log, and with a file replaced. *)
Definition more_log (w : World) (l : list api_event) : World :=
  {| w_net := w_net w; w_files := w_files w; w_log := w_log w ++ l |}.

Definition with_file (w : World) (name : string) (c : list byte) : World :=
  {| w_net := w_net w; w_files := put_file (w_files w) name c; w_log := w_log w |}.

(** What [writeDevice] returns for the error of [Encode]: [io.EOF] counts
    as success. *)
Definition encode_result (eerr : option ferror) : option ferror :=
  match eerr with
  | Some err => if negb (is_EOF err) then Some err else None
  | None => None
  end.

(** The errors the handler answers with. *)
Definition error_500 (err : ferror) : api_Error :=
  {| Error_err := Some err; Status := 500; Message := "Could not unmarshal JSON" |}.

Definition error_malformed : api_Error :=
  {| Error_err := None; Status := 400; Message := "Malformed JSON" |}.

Definition error_invalid_mac (address : string) : api_Error :=
  {| Error_err := None; Status := 400;
     Message := ("Invalid MAC address: " ++ address)%string |}.

Definition error_wake_failed (address : string) : api_Error :=
  {| Error_err := None; Status := 400;
     Message := ("Failed to wake device with address " ++ address)%string |}.

Definition error_method (method : string) : api_Error :=
  {| Error_err := None; Status := 405;
     Message := ("Invalid method " ++ method ++ ", must be GET or POST")%string |}.

(** The world after a call of [wake] that left the network trace [t]. *)
Definition after_wake (w : World) (src : IP) (hw : HardwareAddr)
           (err : option error) (t : list event) : World :=
  {| w_net := t; w_files := w_files w; w_log := w_log w ++ [EvWake src hw err] |}.

(** How the handler ends once [writeDevice] has returned. *)
Definition after_write (wr : option ferror * World)
  : (option Devices * option api_Error) * World :=
  match fst wr with
  | Some err => ((None, Some (error_500 err)), more_log (snd wr) [EvBodyClose])
  | None => ((None, None), more_log (snd wr) [EvWriteHeader 204; EvBodyClose])
  end.

(** Whether the handler returned [(nil, nil)]. *)
Definition returned_nothing (res : option Devices * option api_Error) : bool :=
  match res with
  | (None, None) => true
  | _ => false
  end.

(** [json.Marshal] on what [ServeHTTP] sends: an [Error], of which only
    the exported fields [Status] and [Message] are encoded, or the device
    list. *)
Record Marshal : Type := {
  marshal_Error : Z -> string -> ferror + list byte;
  marshal_Devices : Devices -> ferror + list byte
}.

Definition StatusNotFound : Z := 404.

(** [func notFoundHandler(w, r) (interface{}, *Error)] *)
Definition notFoundHandler : IO (option Devices * option api_Error) :=
  io_ret (None, Some {| Error_err := None; Status := StatusNotFound;
                        Message := "Resource not found" |}).

(** What [ServeHTTP] does with the values [fn] returned; [None] is the
    panic on a [json.Marshal] error. *)
Definition ServeHTTP_respond (J : Marshal) (res : option Devices * option api_Error)
  : IO (option unit) :=
  let (data, e) := res in
  match e with
  | Some e =>
      run _ <- (match Error_err e with
                | Some err => emit (EvLogPrint err)
                | None => io_ret tt
                end);
      match marshal_Error J (Status e) (Message e) with
      | inl _ => io_ret None
      | inr out =>
          run _ <- emit (EvWriteHeader (Status e));
          run _ <- emit (EvRespWrite out);
          io_ret (Some tt)
      end
  | None =>
      match data with
      | Some d =>
          match marshal_Devices J d with
          | inl _ => io_ret None
          | inr out => run _ <- emit (EvRespWrite out); io_ret (Some tt)
          end
      | None => io_ret (Some tt)
      end
  end.

(** [func (fn appHandler) ServeHTTP(w, r)] *)
Definition ServeHTTP (J : Marshal) (fn : IO (option Devices * option api_Error))
  : IO (option unit) :=
  run res <- fn; ServeHTTP_respond J res.

(** ** Reading the log *)

(** The mutex after the events of a log, from [readers] read locks and the
    write lock [writer]; [None] when an event cannot go through in a single
    goroutine: a [Lock] or [RLock] that would wait for the caller's own lock,
    or an unlock of what is not locked. *)
Fixpoint locks_after (l : list api_event) (readers : nat) (writer : bool)
  : option (nat * bool) :=
  match l with
  | [] => Some (readers, writer)
  | EvRLock :: l' => if writer then None else locks_after l' (S readers) writer
  | EvRUnlock :: l' =>
      match readers with
      | 0 => None
      | S n => locks_after l' n writer
      end
  | EvLock :: l' =>
      if writer || negb (readers =? 0) then None else locks_after l' readers true
  | EvUnlock :: l' => if writer then locks_after l' readers false else None
  | _ :: l' => locks_after l' readers writer
  end.

(** Files opened and not closed at the end of a log, from [n] open ones;
    [None] when a close comes with no file open. *)
Fixpoint files_open_after (l : list api_event) (n : nat) : option nat :=
  match l with
  | [] => Some n
  | EvOpenFile _ _ None :: l' => files_open_after l' (S n)
  | EvFileClose _ :: l' =>
      match n with
      | 0 => None
      | S m => files_open_after l' m
      end
  | _ :: l' => files_open_after l' n
  end.

(** The calls of [wake] in a log. *)
Fixpoint wakes (l : list api_event) : list (IP * HardwareAddr) :=
  match l with
  | [] => []
  | EvWake src hw _ :: l' => (src, hw) :: wakes l'
  | _ :: l' => wakes l'
  end.

(** The opens for writing in a log, failed ones included. *)
Fixpoint write_opens (l : list api_event) : nat :=
  match l with
  | [] => 0
  | EvOpenFile _ O_CREATE_RDWR_TRUNC _ :: l' => S (write_opens l')
  | _ :: l' => write_opens l'
  end.

(** The status codes handed to [WriteHeader] in a log. *)
Fixpoint statuses (l : list api_event) : list Z :=
  match l with
  | [] => []
  | EvWriteHeader s :: l' => s :: statuses l'
  | _ :: l' => statuses l'
  end.

(** ** A sample environment *)

(** A stand-in for the JSON of a device list: a first byte [N] for a nil
    list and [L] otherwise, then each address followed by a line feed. *)
Definition sample_Encode_bytes (d : Devices) : list byte :=
  (if is_nil (Devices_Devices d) then Byte.x4e else Byte.x4c)
    :: concat (map (fun v => list_byte_of_string (MACAddress v) ++ [Byte.x0a])
                   (elems (Devices_Devices d))).

Fixpoint sample_lines (bs : list byte) (line : list byte) : list Device :=
  match bs with
  | [] => []
  | b :: bs' =>
      if Byte.eqb b Byte.x0a
      then {| MACAddress := string_of_list_byte line |} :: sample_lines bs' []
      else sample_lines bs' (line ++ [b])
  end.

Definition sample_Unmarshal (bs : list byte) : ferror + DeviceSlice :=
  match bs with
  | [] => inl (JSONError "unexpected end of JSON input")
  | b :: bs' =>
      if Byte.eqb b Byte.x4e then inr None
      else if Byte.eqb b Byte.x4c then inr (Some (sample_lines bs' []))
      else inl (JSONError "invalid character")
  end.

(** A request body is the address itself; an empty body is the end of
    input. *)
Definition sample_Decode (body : list byte) : ferror + Device :=
  match body with
  | [] => inl io_EOF
  | _ => inr {| MACAddress := string_of_list_byte body |}
  end.

(** An environment where opening for writing and encoding answer as given,
    and all else succeeds.  A failed encode writes nothing. *)
Definition sample_env (open_rw_err encode_err : option ferror) : Env :=
  {| open_answer := fun _ flag _ =>
       match flag with
       | O_CREATE_RDONLY => None
       | O_CREATE_RDWR_TRUNC => open_rw_err
       end;
     readall_answer := fun _ => None;
     json_Unmarshal := sample_Unmarshal;
     json_Encode := fun d =>
       match encode_err with
       | None => (sample_Encode_bytes d, None)
       | Some e => ([], Some e)
       end;
     json_Decode := sample_Decode |}.

(** A marshaller that always succeeds: the message's bytes for an error,
    the sample encoding for a device list. *)
Definition sample_Marshal : Marshal :=
  {| marshal_Error := fun _ message => inr (list_byte_of_string message);
     marshal_Devices := fun d => inr (sample_Encode_bytes d) |}.

Definition env_ok : Env := sample_env None None.

(** No file exists, nothing has happened yet. *)
Definition world0 : World :=
  {| w_net := []; w_files := fun _ => None; w_log := [] |}.

(** A request with the given method and an address as body. *)
Definition request (method address : string) : Request :=
  {| Method := method; Body := list_byte_of_string address |}.

(** The api [New] makes on the platform where everything succeeds. *)
Definition api0 : api := New platform_ok "devices.json".

Definition device_aabb : Device := {| MACAddress := "aa:bb:cc:dd:ee:ff" |}.


(** The cache file lists one device. *)
Definition world_one_device : World :=
  with_file world0 "devices.json"
            (sample_Encode_bytes {| Devices_Devices := Some [device_aabb] |}).

(** The file cannot be opened for writing. *)
Definition env_read_only : Env :=
  sample_env (Some (OSError "open devices.json: read-only file system")) None.

(** Encoding fails, nothing is written. *)
Definition env_encode_fails : Env :=
  sample_env None (Some (JSONError "json: encoding failed")).

(** The api [New] makes on the platform where dialling fails. *)
Definition api_unreachable : api := New platform_dial_fails "devices.json".

(** ** Facts about the Go operations *)

Section GoFacts.

Lemma bytes_Equal_refl (a : list byte) : bytes_Equal a a = true.
Proof.
  induction a as [|x a IH]; simpl; [reflexivity|].
  now rewrite (Byte.byte_dec_lb eq_refl), IH.
Qed.

Lemma bytes_Equal_eq (a b : list byte) : bytes_Equal a b = true <-> a = b.
Proof.
  split; [|intros ->; apply bytes_Equal_refl].
  revert b; induction a as [|x a IH]; intros [|y b]; simpl; try discriminate; auto.
  intros H; apply andb_true_iff in H as [Hx Hr].
  apply Byte.byte_dec_bl in Hx; subst y.
  now rewrite (IH _ Hr).
Qed.

Lemma bytes_Repeat_length (h : list byte) (n : nat) :
  length (bytes_Repeat h n) = n * length h.
Proof.
  unfold bytes_Repeat; induction n as [|n IH]; simpl; [reflexivity|].
  now rewrite length_app, IH.
Qed.

Lemma bytes_Repeat_S (h : list byte) (n : nat) :
  bytes_Repeat h (S n) = h ++ bytes_Repeat h n.
Proof. reflexivity. Qed.

(** Byte [j] of a repetition is byte [j mod len] of the repeated block. *)
Lemma bytes_Repeat_nth (h : list byte) (n j : nat) (d : byte) :
  j < n * length h ->
  nth j (bytes_Repeat h n) d = nth (j mod length h) h d.
Proof.
  revert j; induction n as [|n IH]; intros j Hj; [simpl in Hj; lia|].
  rewrite bytes_Repeat_S.
  assert (Hpos : 0 < length h) by (destruct (length h); simpl in Hj; lia).
  destruct (Nat.lt_ge_cases j (length h)) as [Hlt|Hge].
  - rewrite app_nth1 by assumption. now rewrite Nat.mod_small.
  - rewrite app_nth2 by assumption.
    rewrite IH by (simpl in Hj; lia).
    f_equal.
    replace j with ((j - length h) + 1 * length h) at 2 by lia.
    now rewrite Nat.Div0.mod_add.
Qed.

Lemma copy_exact (dst src : list byte) :
  length dst = length src -> copy dst src = src.
Proof.
  intros H; unfold copy. rewrite H, Nat.min_id, firstn_all.
  rewrite <- H, skipn_all. apply app_nil_r.
Qed.

Lemma slice_Some (b : list byte) (lo hi : nat) :
  lo <= hi -> hi <= length b ->
  slice b lo hi = Some (firstn (hi - lo) (skipn lo b)).
Proof.
  intros H1 H2; unfold slice.
  apply Nat.leb_le in H1, H2. now rewrite H1, H2.
Qed.

Lemma set_index_length (s : list byte) (i : nat) (v : byte) :
  length (set_index s i v) = length s.
Proof.
  revert i; induction s as [|x s IH]; intros [|i]; simpl; auto.
Qed.

Lemma set_index_nth (s : list byte) (i k : nat) (v d : byte) :
  i < length s ->
  nth k (set_index s i v) d = if k =? i then v else nth k s d.
Proof.
  revert i k; induction s as [|x s IH]; intros i k Hi; simpl in Hi; [lia|].
  destruct i as [|i], k as [|k]; simpl; try reflexivity.
  apply IH; lia.
Qed.

End GoFacts.

(** ** Facts about the codec *)

Section CodecFacts.

Lemma bcastAddrOff_6 : bcastAddrOff = 6.
Proof. reflexivity. Qed.

(** The slice expression [p[bcastAddrOff:]] in [NewMagicPacket] is always
    in bounds: the buffer is at least [bcastAddrOff] bytes long. *)
Lemma NewMagicPacket_slice_in_bounds (h : HardwareAddr) :
  bcastAddrOff <= length (copy (make (bcastAddrOff + hwAddrN * length h)) bcastAddr).
Proof.
  unfold copy, make. rewrite length_app, length_firstn, length_skipn, repeat_length.
  rewrite bcastAddrOff_6. change (length bcastAddr) with 6. lia.
Qed.

(** The constructed buffer, in closed form, for an address of any length. *)
Lemma NewMagicPacket_eq (h : HardwareAddr) :
  NewMagicPacket h = bcastAddr ++ bytes_Repeat h hwAddrN.
Proof.
  unfold NewMagicPacket, copy_from.
  assert (E : copy (make (bcastAddrOff + hwAddrN * length h)) bcastAddr
              = bcastAddr ++ make (hwAddrN * length h)).
  { unfold copy, make. rewrite repeat_length, bcastAddrOff_6.
    change (length bcastAddr) with 6.
    rewrite Nat.min_r by lia.
    generalize (hwAddrN * length h) as n; intros n.
    cbn [Nat.add repeat skipn]. reflexivity. }
  rewrite E.
  rewrite bcastAddrOff_6. cbn [bcastAddr app firstn skipn].
  do 6 f_equal. apply copy_exact.
  unfold make. now rewrite repeat_length, bytes_Repeat_length.
Qed.

Lemma NewMagicPacket_length (h : HardwareAddr) :
  length (NewMagicPacket h) = 6 + 16 * length h.
Proof.
  rewrite NewMagicPacket_eq, length_app, bytes_Repeat_length. reflexivity.
Qed.

(** [IsMagicPacket] on a 102-byte input: both slice expressions are in
    bounds and the result is the conjunction of the two comparisons. *)
Lemma IsMagicPacket_102 (b : list byte) :
  length b = 102 ->
  IsMagicPacket b =
  Some (if negb (bytes_Equal (firstn 6 b) bcastAddr) then false
        else bytes_Equal (skipn 6 b) (bytes_Repeat (firstn 6 (skipn 6 b)) hwAddrN)).
Proof.
  intros H. unfold IsMagicPacket, MagicPacket_HardwareAddr.
  rewrite bcastAddrOff_6, H.
  rewrite !slice_Some by lia.
  change (102 =? 102) with true. cbv beta iota delta [negb].
  change (6 - 0) with 6. change (6 * 2 - 6) with 6. rewrite skipn_O.
  rewrite (firstn_all2 (n := 102 - 6)) by (rewrite length_skipn; lia).
  destruct (bytes_Equal (firstn 6 b) bcastAddr); reflexivity.
Qed.

(** [IsMagicPacket] never panics. *)
Lemma IsMagicPacket_total (b : list byte) : exists r, IsMagicPacket b = Some r.
Proof.
  destruct (Nat.eq_dec (length b) 102) as [H|H].
  - rewrite IsMagicPacket_102 by assumption. eauto.
  - unfold IsMagicPacket. apply Nat.eqb_neq in H. rewrite H. simpl. eauto.
Qed.

Lemma IsMagicPacket_true_iff (b : list byte) :
  IsMagicPacket b = Some true <->
  length b = 102 /\ firstn 6 b = bcastAddr /\
  skipn 6 b = bytes_Repeat (firstn 6 (skipn 6 b)) hwAddrN.
Proof.
  split.
  - intros H.
    destruct (Nat.eq_dec (length b) 102) as [L|L].
    + rewrite IsMagicPacket_102 in H by assumption.
      destruct (bytes_Equal (firstn 6 b) bcastAddr) eqn:E1; simpl in H;
        [|discriminate].
      injection H as H. apply bytes_Equal_eq in E1, H. auto.
    + unfold IsMagicPacket in H. apply Nat.eqb_neq in L. rewrite L in H.
      discriminate.
  - intros (L & H1 & H2). rewrite IsMagicPacket_102 by assumption.
    rewrite H1, bytes_Equal_refl. cbv beta iota delta [negb].
    f_equal. now apply bytes_Equal_eq.
Qed.

Lemma IsMagicPacket_not_true (b : list byte) :
  IsMagicPacket b <> Some true -> IsMagicPacket b = Some false.
Proof.
  destruct (IsMagicPacket_total b) as [[|] E]; rewrite E; congruence.
Qed.

(** In an accepted packet every byte of the repeated region equals the
    byte at the same offset of the first block. *)
Lemma IsMagicPacket_periodic (b : list byte) (j : nat) (d : byte) :
  IsMagicPacket b = Some true -> j < 96 ->
  nth (6 + j) b d = nth (6 + j mod 6) b d.
Proof.
  intros H Hj. apply IsMagicPacket_true_iff in H as (L & _ & R).
  assert (N : forall k, nth (6 + k) b d = nth k (skipn 6 b) d).
  { intros k. rewrite <- (firstn_skipn 6 b) at 1.
    rewrite app_nth2; rewrite length_firstn, L; [|lia].
    f_equal. lia. }
  assert (L6 : length (firstn 6 (skipn 6 b)) = 6)
    by (rewrite length_firstn, length_skipn, L; reflexivity).
  rewrite !N. rewrite R at 1.
  rewrite bytes_Repeat_nth by (rewrite L6; unfold hwAddrN; lia).
  rewrite L6.
  rewrite <- (firstn_skipn 6 (skipn 6 b)) at 2.
  rewrite app_nth1; [reflexivity|].
  rewrite L6. apply Nat.mod_upper_bound. lia.
Qed.

(** The first block of the repeated region of a packet built for a 6-byte
    address is the address. *)
Lemma NewMagicPacket_first_block (h : HardwareAddr) :
  length h = 6 -> firstn 6 (skipn 6 (NewMagicPacket h)) = h.
Proof.
  intros Hh. rewrite NewMagicPacket_eq. cbn [bcastAddr app skipn].
  unfold hwAddrN. rewrite bytes_Repeat_S, <- Hh.
  rewrite firstn_app, Nat.sub_diag, firstn_all, firstn_O. apply app_nil_r.
Qed.

End CodecFacts.

(** ** The codec's properties *)

Section CodecClaims.

(** C2.  Encode layout: for every 6-byte hardware address [h],
    [NewMagicPacket h] is exactly 102 bytes long, its bytes [0,6) are
    [FF FF FF FF FF FF], and its bytes [6,102) are [h] repeated 16 times.
    In particular the packet for AA:BB:CC:DD:EE:FF is the prefix followed by
    [AA BB CC DD EE FF] sixteen times, written out below. *)
Theorem NewMagicPacket_layout :
  (forall h : HardwareAddr, length h = 6 ->
     length (NewMagicPacket h) = 102 /\
     firstn 6 (NewMagicPacket h) =
       [Byte.xff; Byte.xff; Byte.xff; Byte.xff; Byte.xff; Byte.xff] /\
     skipn 6 (NewMagicPacket h) = concat (repeat h 16)) /\
  NewMagicPacket [Byte.xaa; Byte.xbb; Byte.xcc; Byte.xdd; Byte.xee; Byte.xff] =
    [
     Byte.xff; Byte.xff; Byte.xff; Byte.xff; Byte.xff; Byte.xff;
     Byte.xaa; Byte.xbb; Byte.xcc; Byte.xdd; Byte.xee; Byte.xff;
     Byte.xaa; Byte.xbb; Byte.xcc; Byte.xdd; Byte.xee; Byte.xff;
     Byte.xaa; Byte.xbb; Byte.xcc; Byte.xdd; Byte.xee; Byte.xff;
     Byte.xaa; Byte.xbb; Byte.xcc; Byte.xdd; Byte.xee; Byte.xff;
     Byte.xaa; Byte.xbb; Byte.xcc; Byte.xdd; Byte.xee; Byte.xff;
     Byte.xaa; Byte.xbb; Byte.xcc; Byte.xdd; Byte.xee; Byte.xff;
     Byte.xaa; Byte.xbb; Byte.xcc; Byte.xdd; Byte.xee; Byte.xff;
     Byte.xaa; Byte.xbb; Byte.xcc; Byte.xdd; Byte.xee; Byte.xff;
     Byte.xaa; Byte.xbb; Byte.xcc; Byte.xdd; Byte.xee; Byte.xff;
     Byte.xaa; Byte.xbb; Byte.xcc; Byte.xdd; Byte.xee; Byte.xff;
     Byte.xaa; Byte.xbb; Byte.xcc; Byte.xdd; Byte.xee; Byte.xff;
     Byte.xaa; Byte.xbb; Byte.xcc; Byte.xdd; Byte.xee; Byte.xff;
     Byte.xaa; Byte.xbb; Byte.xcc; Byte.xdd; Byte.xee; Byte.xff;
     Byte.xaa; Byte.xbb; Byte.xcc; Byte.xdd; Byte.xee; Byte.xff;
     Byte.xaa; Byte.xbb; Byte.xcc; Byte.xdd; Byte.xee; Byte.xff;
     Byte.xaa; Byte.xbb; Byte.xcc; Byte.xdd; Byte.xee; Byte.xff
    ].
Proof.
  split; [|reflexivity].
  intros h Hh. rewrite NewMagicPacket_length, Hh.
  rewrite NewMagicPacket_eq. repeat split.
Qed.

Lemma NewMagicPacket_layout_witness :
  length mac_aabbccddeeff = 6 /\
  length (NewMagicPacket mac_aabbccddeeff) = 102 /\
  firstn 6 (NewMagicPacket mac_aabbccddeeff) =
    [Byte.xff; Byte.xff; Byte.xff; Byte.xff; Byte.xff; Byte.xff] /\
  skipn 6 (NewMagicPacket mac_aabbccddeeff) = concat (repeat mac_aabbccddeeff 16).
Proof.
  split; [reflexivity|].
  apply (proj1 NewMagicPacket_layout mac_aabbccddeeff). reflexivity.
Defined.

(** C1.  Round trip: for every 6-byte hardware address [h], the encoded
    packet validates, [IsMagicPacket (NewMagicPacket h)] is true, and
    decodes back to [h], [HardwareAddr] of [NewMagicPacket h] is [h]. *)
Theorem NewMagicPacket_round_trip (h : HardwareAddr) :
  length h = 6 ->
  IsMagicPacket (NewMagicPacket h) = Some true /\
  MagicPacket_HardwareAddr (NewMagicPacket h) = Some h.
Proof.
  intros Hh.
  assert (L : length (NewMagicPacket h) = 102)
    by (rewrite NewMagicPacket_length, Hh; reflexivity).
  pose proof (NewMagicPacket_first_block h Hh) as F.
  split.
  - apply IsMagicPacket_true_iff. split; [exact L | split].
    + rewrite NewMagicPacket_eq. reflexivity.
    + rewrite F, NewMagicPacket_eq. reflexivity.
  - unfold MagicPacket_HardwareAddr. rewrite bcastAddrOff_6.
    rewrite slice_Some by lia. change (6 * 2 - 6) with 6. now rewrite F.
Qed.

Lemma NewMagicPacket_round_trip_witness :
  length mac_aabbccddeeff = 6 /\
  IsMagicPacket (NewMagicPacket mac_aabbccddeeff) = Some true /\
  MagicPacket_HardwareAddr (NewMagicPacket mac_aabbccddeeff) = Some mac_aabbccddeeff.
Proof.
  split; [reflexivity|].
  apply (NewMagicPacket_round_trip mac_aabbccddeeff). reflexivity.
Defined.

(** C6.  Length gate: for every byte sequence [b] whose length is not 102,
    the empty one included, [IsMagicPacket b] is false; and since the length
    is tested before any slice expression is evaluated, [IsMagicPacket]
    returns a boolean (it does not panic on an out-of-range index) for an
    input of any length. *)
Theorem IsMagicPacket_length_gate (b : list byte) :
  (length b <> 102 -> IsMagicPacket b = Some false) /\
  (exists r : bool, IsMagicPacket b = Some r) /\
  IsMagicPacket [] = Some false.
Proof.
  split; [|split; [apply IsMagicPacket_total | reflexivity]].
  intros H. unfold IsMagicPacket. apply Nat.eqb_neq in H. now rewrite H.
Qed.

Lemma IsMagicPacket_length_gate_witness :
  length [Byte.xff; Byte.xff; Byte.xff] <> 102 /\
  IsMagicPacket [Byte.xff; Byte.xff; Byte.xff] = Some false.
Proof.
  split; [simpl; lia|].
  apply (proj1 (IsMagicPacket_length_gate [Byte.xff; Byte.xff; Byte.xff])).
  simpl; lia.
Defined.

(** Changing one byte of the repeated region of an accepted packet gives a
    sequence that is rejected. *)
Lemma IsMagicPacket_one_byte_changed (b : list byte) (i : nat) (v : byte) :
  IsMagicPacket b = Some true ->
  6 <= i < 102 ->
  nth_error b i <> Some v ->
  IsMagicPacket (set_index b i v) = Some false.
Proof.
  intros Hb Hi Hv.
  assert (L : length b = 102) by (apply IsMagicPacket_true_iff in Hb; tauto).
  assert (Hne : nth i b Byte.x00 <> v).
  { intros E. apply Hv. rewrite <- E. apply nth_error_nth'. lia. }
  apply IsMagicPacket_not_true. intros Hb'.
  pose proof (IsMagicPacket_periodic b) as Pb.
  pose proof (IsMagicPacket_periodic (set_index b i v)) as Pb'.
  destruct (Nat.lt_ge_cases i 12) as [Hlo|Hhi].
  - (* the first block changed: the second block no longer matches it *)
    specialize (Pb' (i - 6 + 6) Byte.x00 Hb' ltac:(lia)).
    specialize (Pb (i - 6 + 6) Byte.x00 Hb ltac:(lia)).
    assert (M : (i - 6 + 6) mod 6 = i - 6).
    { change (i - 6 + 6) with (i - 6 + 1 * 6).
      rewrite Nat.Div0.mod_add. apply Nat.mod_small. lia. }
    rewrite M in Pb, Pb'.
    replace (6 + (i - 6)) with i in Pb, Pb' by lia.
    rewrite !set_index_nth in Pb' by lia.
    rewrite Nat.eqb_refl in Pb'.
    replace (6 + (i - 6 + 6) =? i) with false in Pb'
      by (symmetry; apply Nat.eqb_neq; lia).
    congruence.
  - (* a later block changed: it no longer matches the first block *)
    specialize (Pb' (i - 6) Byte.x00 Hb' ltac:(lia)).
    specialize (Pb (i - 6) Byte.x00 Hb ltac:(lia)).
    replace (6 + (i - 6)) with i in Pb, Pb' by lia.
    assert (M : (i - 6) mod 6 < 6) by (apply Nat.mod_upper_bound; lia).
    rewrite !set_index_nth in Pb' by lia.
    rewrite Nat.eqb_refl in Pb'.
    replace (6 + (i - 6) mod 6 =? i) with false in Pb'
      by (symmetry; apply Nat.eqb_neq; lia).
    congruence.
Qed.

(** C7.  Strict structural validation: for every 102-byte sequence [b],
    [IsMagicPacket b] is true if and only if bytes [0,6) are
    [FF FF FF FF FF FF] and bytes [6,102) are bytes [6,12) repeated 16 times.
    Consequently a 102-byte sequence with a wrong prefix is rejected (102
    zero bytes for one), and an accepted sequence in which one byte of the
    repeated region is changed is rejected. *)
Theorem IsMagicPacket_strict :
  (forall b : list byte, length b = 102 ->
     (IsMagicPacket b = Some true <->
      firstn 6 b = [Byte.xff; Byte.xff; Byte.xff; Byte.xff; Byte.xff; Byte.xff] /\
      skipn 6 b = concat (repeat (firstn 6 (skipn 6 b)) 16))) /\
  (forall b : list byte, length b = 102 ->
     firstn 6 b <> [Byte.xff; Byte.xff; Byte.xff; Byte.xff; Byte.xff; Byte.xff] ->
     IsMagicPacket b = Some false) /\
  IsMagicPacket (repeat Byte.x00 102) = Some false /\
  (forall (b : list byte) (i : nat) (v : byte),
     IsMagicPacket b = Some true ->
     6 <= i < 102 ->
     nth_error b i <> Some v ->
     IsMagicPacket (set_index b i v) = Some false).
Proof.
  split; [|split; [|split; [reflexivity|]]].
  - intros b L. rewrite IsMagicPacket_true_iff. tauto.
  - intros b L H. apply IsMagicPacket_not_true.
    rewrite IsMagicPacket_true_iff. tauto.
  - exact IsMagicPacket_one_byte_changed.
Qed.

Lemma IsMagicPacket_strict_witness :
  (IsMagicPacket (NewMagicPacket mac_aabbccddeeff) = Some true /\
   6 <= 20 < 102 /\
   nth_error (NewMagicPacket mac_aabbccddeeff) 20 <> Some Byte.x00) /\
  IsMagicPacket packet_one_byte_off = Some false.
Proof.
  assert (H : nth_error (NewMagicPacket mac_aabbccddeeff) 20 <> Some Byte.x00)
    by (vm_compute; discriminate).
  split; [split; [reflexivity | split; [lia | exact H]]|].
  apply (proj2 (proj2 (proj2 IsMagicPacket_strict))
               (NewMagicPacket mac_aabbccddeeff) 20 Byte.x00);
    [reflexivity | lia | exact H].
Defined.

(** C10.  Validation is complete for the encoder: for every byte sequence
    [b], if [IsMagicPacket b] is true then [b] is [NewMagicPacket] of the
    hardware address [HardwareAddr] reads from [b]; the sequences
    [IsMagicPacket] accepts are exactly the images of [NewMagicPacket] over
    the 6-byte hardware addresses. *)
Theorem IsMagicPacket_complete (b : list byte) :
  (IsMagicPacket b = Some true ->
   exists h : HardwareAddr,
     MagicPacket_HardwareAddr b = Some h /\ length h = 6 /\ b = NewMagicPacket h) /\
  (IsMagicPacket b = Some true <->
   exists h : HardwareAddr, length h = 6 /\ b = NewMagicPacket h).
Proof.
  assert (Fwd : IsMagicPacket b = Some true ->
                exists h : HardwareAddr,
                  MagicPacket_HardwareAddr b = Some h /\ length h = 6 /\
                  b = NewMagicPacket h).
  { intros H. apply IsMagicPacket_true_iff in H as (L & H1 & H2).
    exists (firstn 6 (skipn 6 b)). split; [|split].
    - unfold MagicPacket_HardwareAddr. rewrite bcastAddrOff_6.
      rewrite slice_Some by lia. reflexivity.
    - rewrite length_firstn, length_skipn, L. reflexivity.
    - rewrite NewMagicPacket_eq, <- H2, <- H1. symmetry. apply firstn_skipn. }
  split; [exact Fwd|]. split.
  - intros H. destruct (Fwd H) as (h & _ & Hh & E). eauto.
  - intros (h & Hh & ->). apply IsMagicPacket_true_iff.
    rewrite (NewMagicPacket_first_block h Hh), NewMagicPacket_length, Hh.
    rewrite NewMagicPacket_eq. repeat split.
Qed.

Lemma IsMagicPacket_complete_witness :
  IsMagicPacket (NewMagicPacket mac_aabbccddeeff) = Some true /\
  exists h : HardwareAddr,
    MagicPacket_HardwareAddr (NewMagicPacket mac_aabbccddeeff) = Some h /\
    length h = 6 /\ NewMagicPacket mac_aabbccddeeff = NewMagicPacket h.
Proof.
  split; [reflexivity|].
  apply (proj1 (IsMagicPacket_complete (NewMagicPacket mac_aabbccddeeff))).
  reflexivity.
Defined.

End CodecClaims.

(** ** Facts about the transport *)

Section TransportFacts.

Variable P : Platform.

Lemma opened_app (t1 t2 : list event) : opened (t1 ++ t2) = opened t1 + opened t2.
Proof.
  induction t1 as [|[nw l r [e|]|c p n e|c e] t1 IH]; simpl; auto.
Qed.


(** When [net.DialUDP] fails, [Wake] returns its error and does nothing else. *)
Lemma Wake_dial_error (src : IP) (hw : HardwareAddr) (t : list event) (e : error) :
  dial P (wake_laddr src) wake_raddr = Some e ->
  Wake P src hw t =
  (Some e, t ++ [EvDialUDP "udp" (wake_laddr src) wake_raddr (Some e)]).
Proof.
  intros D. unfold Wake, bind, net_DialUDP.
  fold (wake_laddr src). fold wake_raddr. rewrite D. reflexivity.
Qed.

(** A short write: [Wake] returns [io.ErrShortWrite] from inside the [if],
    [conn.Close] is not reached. *)
Lemma Wake_short (src : IP) (hw : HardwareAddr) (t : list event) (n : Z) :
  dial P (wake_laddr src) wake_raddr = None ->
  write P (wake_conn src) (NewMagicPacket hw) = (n, None) ->
  (n < Z.of_nat (length (NewMagicPacket hw)))%Z ->
  Wake P src hw t =
  (Some ErrShortWrite,
   t ++ [EvDialUDP "udp" (wake_laddr src) wake_raddr None]
     ++ [EvWrite (wake_conn src) (NewMagicPacket hw) n None]).
Proof.
  intros D W N. unfold Wake, bind, net_DialUDP, conn_Write.
  fold (wake_laddr src). fold wake_raddr. rewrite D.
  fold (wake_conn src). rewrite W.
  apply Z.ltb_lt in N. cbn [fst snd is_nil andb]. rewrite N.
  unfold ret. now rewrite <- app_assoc.
Qed.

(** Any other write: [Wake] goes on to [conn.Close], whose error, when there
    is one, replaces the write's. *)
Lemma Wake_not_short (src : IP) (hw : HardwareAddr) (t : list event)
      (n : Z) (err : option error) :
  dial P (wake_laddr src) wake_raddr = None ->
  write P (wake_conn src) (NewMagicPacket hw) = (n, err) ->
  is_nil err && (n <? Z.of_nat (length (NewMagicPacket hw)))%Z = false ->
  Wake P src hw t =
  (match close P (wake_conn src) with Some e1 => Some e1 | None => err end,
   t ++ [EvDialUDP "udp" (wake_laddr src) wake_raddr None]
     ++ [EvWrite (wake_conn src) (NewMagicPacket hw) n err]
     ++ [EvClose (wake_conn src) (close P (wake_conn src))]).
Proof.
  intros D W N. unfold Wake, bind, net_DialUDP, conn_Write, conn_Close.
  fold (wake_laddr src). fold wake_raddr. rewrite D.
  fold (wake_conn src). rewrite W.
  cbn [fst snd]. rewrite N. unfold ret.
  rewrite <- !app_assoc.
  destruct (close P (wake_conn src)); reflexivity.
Qed.

(** [Wake] always returns: one of the three lemmas above applies. *)
Lemma Wake_cases (src : IP) (hw : HardwareAddr) :
  (exists e, dial P (wake_laddr src) wake_raddr = Some e) \/
  (dial P (wake_laddr src) wake_raddr = None /\
   exists n, write P (wake_conn src) (NewMagicPacket hw) = (n, None) /\
             (n < Z.of_nat (length (NewMagicPacket hw)))%Z) \/
  (dial P (wake_laddr src) wake_raddr = None /\
   exists n err, write P (wake_conn src) (NewMagicPacket hw) = (n, err) /\
     is_nil err && (n <? Z.of_nat (length (NewMagicPacket hw)))%Z = false).
Proof.
  destruct (dial P (wake_laddr src) wake_raddr) as [e|]; [left; eauto|right].
  destruct (write P (wake_conn src) (NewMagicPacket hw)) as [n err] eqn:W.
  destruct (is_nil err && (n <? Z.of_nat (length (NewMagicPacket hw)))%Z) eqn:N.
  - left. split; [reflexivity|]. exists n.
    apply andb_true_iff in N as [N1 N2].
    destruct err; [discriminate|]. apply Z.ltb_lt in N2. auto.
  - right. split; [reflexivity|]. eauto.
Qed.

End TransportFacts.

Section ErrorFacts.

Lemma append_empty_r (s : string) : (s ++ "")%string = s.
Proof. induction s as [|c s IH]; simpl; [reflexivity | now rewrite IH]. Qed.

(** The message of the error [net.ParseMAC] returns names the text it was
    given. *)
Lemma AddrError_names_Addr (err addr : string) :
  contains (Error (AddrError err addr)) addr.
Proof.
  unfold contains, Error. destruct (String.eqb_spec addr "") as [->|_].
  - exists ""%string, err. reflexivity.
  - exists "address "%string, (": " ++ err)%string. reflexivity.
Qed.

(** So does the message [WakeString] formats for a source address. *)
Lemma invalid_ip_names_text (srcIP : string) :
  contains (Error (Errorf ("invalid ip: " ++ srcIP)%string)) srcIP.
Proof.
  exists "invalid ip: "%string, ""%string. cbn [Error].
  now rewrite append_empty_r.
Qed.

End ErrorFacts.

(** ** The transport's properties *)

Section TransportClaims.

(** C3, as the code has it.  When the UDP write was not a short write,
    [Wake] closes the connection and reports the close error whenever the
    close returns one, also when the write had returned an error: the close
    error replaces the write error.  The write's error is reported only when
    the close returns none. *)
Theorem Wake_reports_close_error (P : Platform) (src : IP) (hw : HardwareAddr)
        (t : list event) (n : Z) (werr : option error) :
  dial P (wake_laddr src) wake_raddr = None ->
  write P (wake_conn src) (NewMagicPacket hw) = (n, werr) ->
  werr <> None \/ (Z.of_nat (length (NewMagicPacket hw)) <= n)%Z ->
  fst (Wake P src hw t) =
  match close P (wake_conn src) with
  | Some e2 => Some e2
  | None => werr
  end.
Proof.
  intros D W N. rewrite (Wake_not_short P src hw t n werr D W); [reflexivity|].
  destruct N as [N|N].
  - destruct werr; [reflexivity | congruence].
  - apply andb_false_iff. right. now apply Z.ltb_ge.
Qed.

Lemma Wake_reports_close_error_witness :
  dial platform_write_and_close_fail (wake_laddr None) wake_raddr = None /\
  write platform_write_and_close_fail (wake_conn None)
        (NewMagicPacket mac_aabbccddeeff)
  = (0%Z, Some (NetError "write: network is unreachable")) /\
  fst (Wake platform_write_and_close_fail None mac_aabbccddeeff []) =
  Some (NetError "close: bad file descriptor").
Proof.
  split; [reflexivity | split; [reflexivity|]].
  apply (Wake_reports_close_error platform_write_and_close_fail None
           mac_aabbccddeeff [] 0%Z
           (Some (NetError "write: network is unreachable")));
    [reflexivity | reflexivity | left; discriminate].
Defined.

(** C3, as stated, fails: on a platform where the write returns an error and
    the close returns another, [Wake] returns the close error, not the
    earlier write error. *)
Lemma Wake_first_failure_counterexample :
  snd (write platform_write_and_close_fail (wake_conn None)
             (NewMagicPacket mac_aabbccddeeff))
  = Some (NetError "write: network is unreachable") /\
  close platform_write_and_close_fail (wake_conn None)
  = Some (NetError "close: bad file descriptor") /\
  fst (Wake platform_write_and_close_fail None mac_aabbccddeeff [])
  = Some (NetError "close: bad file descriptor") /\
  fst (Wake platform_write_and_close_fail None mac_aabbccddeeff [])
  <> Some (NetError "write: network is unreachable").
Proof.
  repeat split. vm_compute. discriminate.
Qed.

(** On every path of [Wake] but the short write, the association that was
    opened is closed before [Wake] returns. *)
Lemma Wake_closes_unless_short_write (P : Platform) (src : IP) (hw : HardwareAddr)
      (n : Z) (err : option error) :
  dial P (wake_laddr src) wake_raddr = None ->
  write P (wake_conn src) (NewMagicPacket hw) = (n, err) ->
  is_nil err && (n <? Z.of_nat (length (NewMagicPacket hw)))%Z = false ->
  opened (snd (Wake P src hw [])) = 1 /\ closed (snd (Wake P src hw [])) = 1.
Proof.
  intros D W N. rewrite (Wake_not_short P src hw [] n err D W N).
  split; reflexivity.
Qed.

(** C4 fails on the short-write path: the write accepts 50 of the 102 bytes
    and reports no error; [Wake] returns [io.ErrShortWrite] with one
    association opened and [Close] never called. *)
Theorem Wake_short_write_leaves_association_open :
  fst (Wake platform_short_write None mac_aabbccddeeff []) = Some ErrShortWrite /\
  opened (snd (Wake platform_short_write None mac_aabbccddeeff [])) = 1 /\
  closed (snd (Wake platform_short_write None mac_aabbccddeeff [])) = 0.
Proof. repeat split. Qed.



(** C9, as the code has it.  Addressing: every invocation of [Wake] asks
    for one UDP association whose remote end is the IPv4 limited-broadcast
    address 255.255.255.255 on port 9, and whose local end is bound to the
    source IP when one is given (non-nil) and left to the platform otherwise.
    Once the association is open, exactly one datagram is written on it, the
    magic packet of the hardware address; none is sent otherwise.  The
    datagram has 6 + 16 * len(hwAddr) bytes, for an address of any length:
    102 bytes exactly when the address has 6. *)
Theorem Wake_addressing (P : Platform) (src : IP) (hw : HardwareAddr)
        (t : list event) :
  let raddr :=
    {| addr_IP := IPv4 Byte.xff Byte.xff Byte.xff Byte.xff; Port := 9; Zone := "" |} in
  let laddr :=
    match src with
    | Some ip => Some {| addr_IP := Some ip; Port := 0; Zone := "" |}
    | None => None
    end in
  exists t' : list event,
    snd (Wake P src hw t) = t ++ t' /\
    dials t' = [("udp"%string, laddr, raddr)] /\
    datagrams t' =
      match dial P laddr raddr with
      | None => [({| LocalAddr := laddr; RemoteAddr := raddr |}, NewMagicPacket hw)]
      | Some _ => []
      end /\
    length (NewMagicPacket hw) = 6 + 16 * length hw /\
    (length (NewMagicPacket hw) = 102 <-> length hw = 6).
Proof.
  intros raddr laddr.
  assert (El : laddr = wake_laddr src) by (destruct src; reflexivity).
  assert (Er : raddr = wake_raddr) by reflexivity.
  assert (L : length (NewMagicPacket hw) = 6 + 16 * length hw)
    by apply NewMagicPacket_length.
  assert (L6 : length (NewMagicPacket hw) = 102 <-> length hw = 6)
    by (rewrite L; lia).
  rewrite El, Er. fold (wake_conn src).
  destruct (Wake_cases P src hw) as [(e & D) | [(D & n & W & N) | (D & n & err & W & N)]].
  - rewrite (Wake_dial_error P src hw t e D), D. eexists.
    split; [reflexivity|]. repeat split; auto; apply L6.
  - rewrite (Wake_short P src hw t n D W N), D. eexists.
    split; [reflexivity|]. repeat split; auto; apply L6.
  - rewrite (Wake_not_short P src hw t n err D W N), D. eexists.
    split; [reflexivity|]. repeat split; auto; apply L6.
Qed.

Lemma Wake_addressing_witness :
  length mac_aabbccddeeff = 6 /\
  exists t' : list event,
    snd (Wake platform_ok (sample_ParseIP "192.168.1.10") mac_aabbccddeeff []) = [] ++ t' /\
    dials t' =
      [("udp"%string,
        Some {| addr_IP := IPv4 Byte.xc0 Byte.xa8 Byte.x01 Byte.x0a; Port := 0; Zone := "" |},
        {| addr_IP := IPv4 Byte.xff Byte.xff Byte.xff Byte.xff; Port := 9; Zone := "" |})] /\
    datagrams t' =
      [({| LocalAddr :=
             Some {| addr_IP := IPv4 Byte.xc0 Byte.xa8 Byte.x01 Byte.x0a;
                     Port := 0; Zone := "" |};
           RemoteAddr :=
             {| addr_IP := IPv4 Byte.xff Byte.xff Byte.xff Byte.xff;
                Port := 9; Zone := "" |} |},
        NewMagicPacket mac_aabbccddeeff)] /\
    length (NewMagicPacket mac_aabbccddeeff) = 102.
Proof.
  split; [reflexivity|].
  destruct (Wake_addressing platform_ok (sample_ParseIP "192.168.1.10")
              mac_aabbccddeeff [])
    as (t' & H1 & H2 & H3 & _ & H5).
  exists t'. split; [exact H1|]. split; [exact H2|]. split; [exact H3|].
  apply H5. reflexivity.
Defined.

(** C9, as stated, fails: [Wake] takes an address of any length, and for an
    8-byte one, which [net.ParseMAC] also returns, the one datagram it sends
    to the broadcast address has 134 bytes, not 102. *)
Lemma Wake_addressing_counterexample :
  length eui64_02005e1000000001 = 8 /\
  datagrams (snd (Wake platform_ok None eui64_02005e1000000001 []))
  = [(wake_conn None, NewMagicPacket eui64_02005e1000000001)] /\
  length (NewMagicPacket eui64_02005e1000000001) = 134 /\
  length (NewMagicPacket eui64_02005e1000000001) <> 102.
Proof.
  split; [reflexivity|]. split; [reflexivity|]. split; [reflexivity|].
  intros H. vm_compute in H. discriminate H.
Qed.

(** C8.  Text-address variant: when the MAC address text fails to parse, or
    it parses and the source IP text is non-empty and fails to parse (as
    "not-an-ip" does), [WakeString] returns an error whose message contains
    the offending text, and returns it before invoking [Wake]: the trace of
    network calls is the one it started with.  The error for the MAC address
    is the one [net.ParseMAC] returns, an [AddrError] naming its argument. *)
Theorem WakeString_malformed (P : Platform) (srcIP macAddr : string)
        (t : list event) :
  (forall (s : string) (e : error),
     ParseMAC P s = inl e -> e = AddrError "invalid MAC address" s) ->
  (forall e0 : error, ParseMAC P macAddr = inl e0 ->
     exists e : error,
       WakeString P srcIP macAddr t = (Some e, t) /\
       contains (Error e) macAddr) /\
  (forall hw : HardwareAddr, ParseMAC P macAddr = inr hw ->
     srcIP <> ""%string -> ParseIP P srcIP = None ->
     exists e : error,
       WakeString P srcIP macAddr t = (Some e, t) /\
       contains (Error e) srcIP).
Proof.
  intros HMAC. split.
  - intros e0 E. exists e0. unfold WakeString. rewrite E. split; [reflexivity|].
    rewrite (HMAC _ _ E). apply AddrError_names_Addr.
  - intros hw E Hne HIP.
    exists (Errorf ("invalid ip: " ++ srcIP)%string).
    unfold WakeString. rewrite E, HIP.
    apply String.eqb_neq in Hne. rewrite Hne.
    split; [reflexivity | apply invalid_ip_names_text].
Qed.

Lemma WakeString_malformed_witness :
  (forall (s : string) (e : error),
     ParseMAC platform_ok s = inl e -> e = AddrError "invalid MAC address" s) /\
  (exists e : error,
     WakeString platform_ok "" "aa-bb" [] = (Some e, []) /\
     contains (Error e) "aa-bb") /\
  (exists e : error,
     WakeString platform_ok "not-an-ip" "aa:bb:cc:dd:ee:ff" [] = (Some e, []) /\
     contains (Error e) "not-an-ip").
Proof.
  assert (HMAC : forall (s : string) (e : error),
             ParseMAC platform_ok s = inl e -> e = AddrError "invalid MAC address" s).
  { intros s e. simpl. unfold sample_ParseMAC.
    destruct (s =? "aa:bb:cc:dd:ee:ff")%string; congruence. }
  split; [exact HMAC | split].
  - apply (proj1 (WakeString_malformed platform_ok "" "aa-bb" [] HMAC)
             (AddrError "invalid MAC address" "aa-bb")).
    reflexivity.
  - apply (proj2 (WakeString_malformed platform_ok "not-an-ip"
                    "aa:bb:cc:dd:ee:ff" [] HMAC) mac_aabbccddeeff);
      [reflexivity | discriminate | reflexivity].
Defined.

End TransportClaims.

(** ** More about package wol *)

Section WolMore.

Lemma app_eq_length_l {A : Type} (l1 l2 r1 r2 : list A) :
  l1 ++ r1 = l2 ++ r2 -> length l1 = length l2 -> l1 = l2.
Proof.
  revert l2; induction l1 as [|x l1 IH]; intros [|y l2] E L;
    simpl in *; try discriminate; [reflexivity|].
  injection E as -> E. f_equal. apply IH; [exact E | lia].
Qed.

(** X1.  [NewMagicPacket] does not look at the length of the address it is given;
    what it builds is accepted by [IsMagicPacket] exactly when the address
    has 6 bytes, and rejected for every other length. *)
Theorem NewMagicPacket_accepted_iff_6_bytes (h : HardwareAddr) :
  (IsMagicPacket (NewMagicPacket h) = Some true <-> length h = 6) /\
  (IsMagicPacket (NewMagicPacket h) = Some false <-> length h <> 6).
Proof.
  assert (A : IsMagicPacket (NewMagicPacket h) = Some true <-> length h = 6).
  { split.
    - intros H. apply IsMagicPacket_true_iff in H as (L & _).
      rewrite NewMagicPacket_length in L. lia.
    - intros Hh. apply IsMagicPacket_true_iff.
      rewrite (NewMagicPacket_first_block h Hh), NewMagicPacket_length, Hh.
      rewrite NewMagicPacket_eq. repeat split. }
  split; [exact A|]. split.
  - intros F Hh. apply A in Hh. congruence.
  - intros Hh. apply IsMagicPacket_not_true. intros T. apply A in T. auto.
Qed.

(** X2.  [NewMagicPacket] is injective: two addresses, of any lengths, with the
    same packet are the same address. *)
Theorem NewMagicPacket_injective (h1 h2 : HardwareAddr) :
  NewMagicPacket h1 = NewMagicPacket h2 -> h1 = h2.
Proof.
  intros E.
  assert (L : length h1 = length h2).
  { apply (f_equal (@length byte)) in E.
    rewrite !NewMagicPacket_length in E. lia. }
  rewrite !NewMagicPacket_eq in E. apply app_inv_head in E.
  unfold hwAddrN in E. rewrite !bytes_Repeat_S in E.
  exact (app_eq_length_l _ _ _ _ E L).
Qed.

Lemma NewMagicPacket_injective_witness :
  NewMagicPacket [Byte.x01; Byte.x02] = NewMagicPacket ([Byte.x01] ++ [Byte.x02]) /\
  [Byte.x01; Byte.x02] = [Byte.x01] ++ [Byte.x02].
Proof.
  split; [reflexivity|].
  apply (NewMagicPacket_injective [Byte.x01; Byte.x02] ([Byte.x01] ++ [Byte.x02])).
  reflexivity.
Defined.

(** X3.  On a packet of 12 bytes or more the [HardwareAddr] method returns
    bytes [6,12) of it, 6 bytes, whatever the rest holds: it validates
    nothing, and the packet need not be one [IsMagicPacket] accepts. *)
Theorem HardwareAddr_bounds (p : MagicPacket) :
  12 <= length p ->
  exists h : HardwareAddr,
    MagicPacket_HardwareAddr p = Some h /\ length h = 6 /\
    forall (i : nat) (d : byte), i < 6 -> nth i h d = nth (6 + i) p d.
Proof.
  unfold MagicPacket_HardwareAddr. rewrite bcastAddrOff_6.
  intros L. exists (firstn 6 (skipn 6 p)).
  rewrite slice_Some by lia. split; [reflexivity|]. split.
  - rewrite length_firstn, length_skipn. lia.
  - intros i d Hi. rewrite <- (firstn_skipn 6 p) at 2.
    rewrite app_nth2; rewrite length_firstn; [|lia].
    replace (6 + i - Nat.min 6 (length p)) with i by lia.
    rewrite <- (firstn_skipn 6 (skipn 6 p)) at 2.
    rewrite app_nth1; [reflexivity|].
    rewrite length_firstn, length_skipn. lia.
Qed.

Lemma HardwareAddr_bounds_witness :
  12 <= length (repeat Byte.x07 12) /\
  IsMagicPacket (repeat Byte.x07 12) = Some false /\
  exists h : HardwareAddr,
    MagicPacket_HardwareAddr (repeat Byte.x07 12) = Some h /\ length h = 6 /\
    forall (i : nat) (d : byte), i < 6 -> nth i h d = nth (6 + i) (repeat Byte.x07 12) d.
Proof.
  split; [simpl; lia|]. split; [reflexivity|].
  apply (HardwareAddr_bounds (repeat Byte.x07 12)). simpl; lia.
Defined.

(** X4.  [Wake] returns nil in exactly one case: the dial succeeded, the write
    returned no error and a count of at least the packet's length, and the
    close returned no error. *)
Theorem Wake_nil_iff (P : Platform) (src : IP) (hw : HardwareAddr) (t : list event) :
  fst (Wake P src hw t) = None <->
  dial P (wake_laddr src) wake_raddr = None /\
  snd (write P (wake_conn src) (NewMagicPacket hw)) = None /\
  (Z.of_nat (length (NewMagicPacket hw))
   <= fst (write P (wake_conn src) (NewMagicPacket hw)))%Z /\
  close P (wake_conn src) = None.
Proof.
  destruct (Wake_cases P src hw)
    as [(e & D) | [(D & n & W & N) | (D & n & err & W & N)]].
  - rewrite (Wake_dial_error P src hw t e D), D. cbn [fst].
    split; [discriminate | intros (H & _); discriminate].
  - rewrite (Wake_short P src hw t n D W N), W. cbn [fst snd].
    split; [discriminate | intros (_ & _ & H & _); lia].
  - rewrite (Wake_not_short P src hw t n err D W N), W. cbn [fst snd].
    destruct (close P (wake_conn src)) as [e1|].
    + split; [discriminate | intros (_ & _ & _ & H); discriminate].
    + split.
      * intros ->. cbn [is_nil andb] in N. apply Z.ltb_ge in N. auto.
      * intros (_ & H & _). exact H.
Qed.

(** X5.  When [net.DialUDP] fails, [Wake] returns that error and does nothing
    more: the dial is the only call made, no datagram is written and nothing
    is closed. *)
Theorem Wake_dial_failure (P : Platform) (src : IP) (hw : HardwareAddr)
        (t : list event) (e : error) :
  dial P (wake_laddr src) wake_raddr = Some e ->
  fst (Wake P src hw t) = Some e /\
  snd (Wake P src hw t) = t ++ [EvDialUDP "udp" (wake_laddr src) wake_raddr (Some e)].
Proof.
  intros D. rewrite (Wake_dial_error P src hw t e D). split; reflexivity.
Qed.

Lemma Wake_dial_failure_witness :
  dial platform_dial_fails (wake_laddr None) wake_raddr
  = Some (NetError "dial udp: network is unreachable") /\
  fst (Wake platform_dial_fails None mac_aabbccddeeff [])
  = Some (NetError "dial udp: network is unreachable") /\
  snd (Wake platform_dial_fails None mac_aabbccddeeff [])
  = [] ++ [EvDialUDP "udp" (wake_laddr None) wake_raddr
                     (Some (NetError "dial udp: network is unreachable"))].
Proof.
  split; [reflexivity|].
  apply (Wake_dial_failure platform_dial_fails None mac_aabbccddeeff []).
  reflexivity.
Defined.

(** X6.  Whatever the platform answers, one call of [Wake] dials exactly once,
    writes one datagram when the dial succeeded and none otherwise, and
    calls [Close] at most once and never without an open association. *)
Theorem Wake_trace_discipline (P : Platform) (src : IP) (hw : HardwareAddr) :
  length (dials (snd (Wake P src hw []))) = 1 /\
  opened (snd (Wake P src hw [])) <= 1 /\
  length (datagrams (snd (Wake P src hw []))) = opened (snd (Wake P src hw [])) /\
  closed (snd (Wake P src hw [])) <= opened (snd (Wake P src hw [])).
Proof.
  destruct (Wake_cases P src hw)
    as [(e & D) | [(D & n & W & N) | (D & n & err & W & N)]].
  - rewrite (Wake_dial_error P src hw [] e D). simpl. lia.
  - rewrite (Wake_short P src hw [] n D W N). simpl. lia.
  - rewrite (Wake_not_short P src hw [] n err D W N). simpl. lia.
Qed.



End WolMore.

(** ** The device list *)

Section DeviceList.

Lemma add_loop_true_iff (device : Device) (vs : list Device) :
  add_loop device vs = true <-> In (MACAddress device) (map MACAddress vs).
Proof.
  induction vs as [|v vs IH]; simpl; [split; [discriminate | tauto]|].
  destruct (String.eqb_spec (MACAddress device) (MACAddress v)) as [E|N].
  - split; auto.
  - rewrite IH. split; [auto | intros [H|H]; [congruence | exact H]].
Qed.

(** What the loop of [remove] leaves: [keep], then the devices with another
    address, in the order they had. *)
Lemma remove_loop_elems (device : Device) (vs : list Device) (keep : DeviceSlice) :
  elems (remove_loop device vs keep)
  = elems keep
    ++ filter (fun v => negb (MACAddress device =? MACAddress v)%string) vs.
Proof.
  revert keep; induction vs as [|v vs IH]; intros keep; simpl.
  - now rewrite app_nil_r.
  - destruct (MACAddress device =? MACAddress v)%string; simpl.
    + apply IH.
    + rewrite IH. simpl. now rewrite <- app_assoc.
Qed.

Lemma remove_loop_nil_iff (device : Device) (vs : list Device) (keep : DeviceSlice) :
  remove_loop device vs keep = None <->
  keep = None /\ forall v, In v vs -> MACAddress v = MACAddress device.
Proof.
  revert keep; induction vs as [|v vs IH]; intros keep; simpl.
  - split; [intros ->; split; [reflexivity | tauto] | tauto].
  - destruct (String.eqb_spec (MACAddress device) (MACAddress v)) as [E|N].
    + rewrite IH. split; intros [K H]; (split; [exact K|]).
      * intros v' [<-|Hv]; auto.
      * intros v' Hv. apply H. auto.
    + rewrite IH. unfold append_Device. split.
      * intros [K _]. discriminate.
      * intros [_ H]. exfalso. apply N. symmetry. apply H. auto.
Qed.

(** X8.  [add] keeps the addresses of the list distinct, and leaves the device's
    address in the list. *)
Theorem Devices_add_keeps_distinct (d : Devices) (device : Device) :
  NoDup (addresses d) ->
  NoDup (addresses (Devices_add d device)) /\
  In (MACAddress device) (addresses (Devices_add d device)).
Proof.
  intros ND. unfold Devices_add, addresses in *.
  destruct (add_loop device (elems (Devices_Devices d))) eqn:E.
  - split; [exact ND | now apply add_loop_true_iff].
  - cbn [Devices_Devices append_Device elems]. rewrite map_app. simpl. split.
    + apply NoDup_app; [exact ND | repeat constructor; simpl; tauto |].
      intros x Hx [<-|[]].
      apply add_loop_true_iff in Hx. congruence.
    + apply in_or_app. right. simpl. auto.
Qed.

Lemma Devices_add_keeps_distinct_witness :
  NoDup (addresses {| Devices_Devices := Some [{| MACAddress := "aa:bb:cc:dd:ee:ff" |}] |}) /\
  NoDup (addresses (Devices_add
                      {| Devices_Devices := Some [{| MACAddress := "aa:bb:cc:dd:ee:ff" |}] |}
                      {| MACAddress := "11:22:33:44:55:66" |})) /\
  In "11:22:33:44:55:66"%string
     (addresses (Devices_add
                   {| Devices_Devices := Some [{| MACAddress := "aa:bb:cc:dd:ee:ff" |}] |}
                   {| MACAddress := "11:22:33:44:55:66" |})).
Proof.
  assert (ND : NoDup (addresses {| Devices_Devices :=
                                     Some [{| MACAddress := "aa:bb:cc:dd:ee:ff" |}] |}))
    by (repeat constructor; simpl; tauto).
  split; [exact ND|].
  apply (Devices_add_keeps_distinct
           {| Devices_Devices := Some [{| MACAddress := "aa:bb:cc:dd:ee:ff" |}] |}
           {| MACAddress := "11:22:33:44:55:66" |} ND).
Defined.

(** X9.  [add] only ever appends: the devices already listed keep their places,
    and at most the new device follows them.  Adding a device a second time
    changes nothing. *)
Theorem Devices_add_appends_once (d : Devices) (device : Device) :
  (elems (Devices_Devices (Devices_add d device)) = elems (Devices_Devices d) \/
   elems (Devices_Devices (Devices_add d device))
   = elems (Devices_Devices d) ++ [device]) /\
  Devices_add (Devices_add d device) device = Devices_add d device.
Proof.
  split.
  - unfold Devices_add.
    destruct (add_loop device (elems (Devices_Devices d))); auto.
  - assert (H : add_loop device (elems (Devices_Devices (Devices_add d device))) = true).
    { apply add_loop_true_iff. unfold Devices_add.
      destruct (add_loop device (elems (Devices_Devices d))) eqn:E.
      - now apply add_loop_true_iff.
      - cbn [Devices_Devices append_Device elems]. rewrite map_app.
        apply in_or_app. right. simpl. auto. }
    unfold Devices_add at 1. now rewrite H.
Qed.

Lemma Devices_remove_elems (d : Devices) (device : Device) :
  elems (Devices_Devices (Devices_remove d device))
  = filter (fun v => negb (MACAddress device =? MACAddress v)%string)
           (elems (Devices_Devices d)).
Proof.
  unfold Devices_remove. cbn [Devices_Devices]. now rewrite remove_loop_elems.
Qed.

Lemma Devices_remove_not_in (d : Devices) (device : Device) :
  ~ In (MACAddress device) (addresses (Devices_remove d device)).
Proof.
  unfold addresses. rewrite Devices_remove_elems. intros H.
  apply in_map_iff in H as (v & Hv & Hin).
  apply filter_In in Hin as [_ Hf]. rewrite <- Hv, String.eqb_refl in Hf.
  discriminate.
Qed.

(** X10.  [remove] drops every device with the given address, duplicates
    included, and keeps the others in their order; the address is not in the
    list afterwards. *)
Theorem Devices_remove_drops_all (d : Devices) (device : Device) :
  elems (Devices_Devices (Devices_remove d device))
  = filter (fun v => negb (MACAddress device =? MACAddress v)%string)
           (elems (Devices_Devices d)) /\
  ~ In (MACAddress device) (addresses (Devices_remove d device)).
Proof.
  split; [apply Devices_remove_elems | apply Devices_remove_not_in].
Qed.

(** X11.  [remove] builds its result from a nil slice: when no device is kept, the
    list it leaves is nil, not an empty slice, whatever it was before. *)
Theorem Devices_remove_leaves_nil (d : Devices) (device : Device) :
  Devices_Devices (Devices_remove d device) = None <->
  forall v, In v (elems (Devices_Devices d)) -> MACAddress v = MACAddress device.
Proof.
  unfold Devices_remove. cbn [Devices_Devices]. rewrite remove_loop_nil_iff.
  tauto.
Qed.

(** X12.  [remove] after [add] leaves what [remove] alone leaves, and [add]
    after [remove] puts the device last. *)
Theorem Devices_add_remove (d : Devices) (device : Device) :
  elems (Devices_Devices (Devices_remove (Devices_add d device) device))
  = elems (Devices_Devices (Devices_remove d device)) /\
  elems (Devices_Devices (Devices_add (Devices_remove d device) device))
  = elems (Devices_Devices (Devices_remove d device)) ++ [device].
Proof.
  split.
  - rewrite !Devices_remove_elems.
    unfold Devices_add.
    destruct (add_loop device (elems (Devices_Devices d))); [reflexivity|].
    cbn [Devices_Devices append_Device elems]. rewrite filter_app. simpl.
    rewrite String.eqb_refl. simpl. apply app_nil_r.
  - unfold Devices_add.
    destruct (add_loop device (elems (Devices_Devices (Devices_remove d device)))) eqn:E.
    + apply add_loop_true_iff in E.
      exfalso. exact (Devices_remove_not_in d device E).
    + reflexivity.
Qed.

End DeviceList.

(** ** Facts about the cache file *)

Ltac inr_inv :=
  match goal with
  | H : inr _ = inr _ |- _ => injection H as <-
  | H : inl _ = inr _ |- _ => discriminate H
  end.

Section StoreFacts.

Variable E : Env.

Lemma locks_after_app (l1 l2 : list api_event) (rd : nat) (wr : bool) :
  locks_after (l1 ++ l2) rd wr =
  match locks_after l1 rd wr with
  | Some (rd', wr') => locks_after l2 rd' wr'
  | None => None
  end.
Proof.
  revert rd wr; induction l1 as [|e l1 IH]; intros rd wr; [reflexivity|].
  destruct e; simpl; auto.
  - destruct wr; auto.
  - destruct rd; auto.
  - destruct (wr || negb (rd =? 0)); auto.
  - destruct wr; auto.
Qed.

Lemma files_open_after_app (l1 l2 : list api_event) (n : nat) :
  files_open_after (l1 ++ l2) n =
  match files_open_after l1 n with
  | Some m => files_open_after l2 m
  | None => None
  end.
Proof.
  revert n; induction l1 as [|e l1 IH]; intros n; [reflexivity|].
  destruct e; simpl; auto.
  - destruct err; auto.
  - destruct n; auto.
Qed.

Lemma wakes_app (l1 l2 : list api_event) : wakes (l1 ++ l2) = wakes l1 ++ wakes l2.
Proof.
  induction l1 as [|e l1 IH]; [reflexivity|].
  destruct e; simpl; auto. now rewrite IH.
Qed.

Lemma statuses_app (l1 l2 : list api_event) :
  statuses (l1 ++ l2) = statuses l1 ++ statuses l2.
Proof.
  induction l1 as [|e l1 IH]; [reflexivity|].
  destruct e; simpl; auto. now rewrite IH.
Qed.

Lemma write_opens_app (l1 l2 : list api_event) :
  write_opens (l1 ++ l2) = write_opens l1 + write_opens l2.
Proof.
  induction l1 as [|e l1 IH]; [reflexivity|].
  destruct e; simpl; auto. destruct flag; simpl; auto.
Qed.

Lemma put_file_same (files : string -> option (list byte)) (name : string)
      (c : list byte) :
  put_file files name c name = Some c.
Proof. unfold put_file. now rewrite String.eqb_refl. Qed.

Lemma put_file_other (files : string -> option (list byte)) (name n : string)
      (c : list byte) :
  n <> name -> put_file files name c n = files n.
Proof. intros H. unfold put_file. apply String.eqb_neq in H. now rewrite H. Qed.

(** What [readDevices] returns from the bytes it read. *)
Lemma readDevices_result (a : api) (w : World) :
  open_answer E (cacheFile a) O_CREATE_RDONLY (w_files w (cacheFile a)) = None ->
  readall_answer E (content (w_files w (cacheFile a))) = None ->
  fst (readDevices E a w) =
  if length (content (w_files w (cacheFile a))) =? 0
  then inr {| Devices_Devices := Some [] |}
  else match json_Unmarshal E (content (w_files w (cacheFile a))) with
       | inl err => inl err
       | inr ds => inr {| Devices_Devices := Some (elems ds) |}
       end.
Proof.
  intros HO HR.
  unfold readDevices, defer, io_bind, io_ret, emit, os_OpenFile, ioutil_ReadAll.
  cbn [w_files w_net w_log]. rewrite HO.
  destruct (w_files w (cacheFile a)) as [c|] eqn:F;
    cbn [w_files w_net w_log content] in *;
    rewrite ?F, ?put_file_same; cbn [content]; rewrite HR.
  - destruct (length c =? 0); [reflexivity|].
    destruct (json_Unmarshal E c) as [e|[l|]]; reflexivity.
  - reflexivity.
Qed.

(** What one call of [readDevices] does to the world, on every path. *)
Lemma readDevices_spec (a : api) (w : World) :
  exists l : list api_event,
    w_log (snd (readDevices E a w)) = w_log w ++ l /\
    w_net (snd (readDevices E a w)) = w_net w /\
    (forall n, content (w_files (snd (readDevices E a w)) n) = content (w_files w n)) /\
    (forall n c, w_files w n = Some c ->
                 w_files (snd (readDevices E a w)) n = Some c) /\
    (forall n, n <> cacheFile a ->
               w_files (snd (readDevices E a w)) n = w_files w n) /\
    (forall rd, locks_after l rd false = Some (rd, false)) /\
    (forall k, files_open_after l k = Some k) /\
    wakes l = [] /\ statuses l = [] /\ write_opens l = 0 /\
    (forall d, fst (readDevices E a w) = inr d ->
               Devices_Devices d <> None /\
               w_files (snd (readDevices E a w)) (cacheFile a)
               = Some (content (w_files w (cacheFile a)))).
Proof.
  unfold readDevices, defer, io_bind, io_ret, emit, os_OpenFile, ioutil_ReadAll.
  cbn [w_files w_net w_log].
  destruct (open_answer E (cacheFile a) O_CREATE_RDONLY (w_files w (cacheFile a)))
    as [oe|] eqn:HO.
  - cbn [fst snd w_files w_net w_log]. rewrite <- !app_assoc.
    eexists. split; [reflexivity|]. repeat split; auto; discriminate.
  - cbn [fst snd w_files w_net w_log].
    assert (PF : forall n, content (match w_files w (cacheFile a) with
                                    | Some _ => w_files w
                                    | None => put_file (w_files w) (cacheFile a) []
                                    end n) = content (w_files w n)).
    { intros n. destruct (w_files w (cacheFile a)) eqn:F; [reflexivity|].
      destruct (String.eqb_spec n (cacheFile a)) as [->|N].
      - now rewrite put_file_same, F.
      - now rewrite put_file_other. }
    assert (PS : forall n c, w_files w n = Some c ->
                             match w_files w (cacheFile a) with
                             | Some _ => w_files w
                             | None => put_file (w_files w) (cacheFile a) []
                             end n = Some c).
    { intros n c Hn. destruct (w_files w (cacheFile a)) eqn:F; [exact Hn|].
      rewrite put_file_other; [exact Hn | congruence]. }
    assert (PO : forall n, n <> cacheFile a ->
                           match w_files w (cacheFile a) with
                           | Some _ => w_files w
                           | None => put_file (w_files w) (cacheFile a) []
                           end n = w_files w n).
    { intros n Hn. destruct (w_files w (cacheFile a)); [reflexivity|].
      now rewrite put_file_other. }
    assert (PE : match w_files w (cacheFile a) with
                 | Some _ => w_files w
                 | None => put_file (w_files w) (cacheFile a) []
                 end (cacheFile a) = Some (content (w_files w (cacheFile a)))).
    { destruct (w_files w (cacheFile a)) eqn:F; [now rewrite F|].
      now rewrite put_file_same. }
    set (files' := match w_files w (cacheFile a) with
                   | Some _ => w_files w
                   | None => put_file (w_files w) (cacheFile a) []
                   end) in *.
    destruct (readall_answer E (content (files' (cacheFile a)))) as [re|].
    + cbn [fst snd w_files w_net w_log]. rewrite <- !app_assoc.
      eexists. split; [reflexivity|]. repeat split; auto; discriminate.
    + destruct (length (content (files' (cacheFile a))) =? 0).
      * cbn [fst snd w_files w_net w_log]. rewrite <- !app_assoc.
        eexists. split; [reflexivity|].
        repeat split; auto; try discriminate; inr_inv; cbn; discriminate.
      * destruct (json_Unmarshal E (content (files' (cacheFile a)))) as [ue|[ds|]];
          cbn [fst snd w_files w_net w_log is_nil]; rewrite <- !app_assoc;
          (eexists; split; [reflexivity|]);
          repeat split; auto; try discriminate; inr_inv; cbn; discriminate.
Qed.

(** [writeDevice], path by path, from the world [readDevices] leaves. *)
Lemma writeDevice_run (a : api) (device : Device) (add : bool) (w : World) :
  writeDevice E a device add w =
  let w1 := snd (readDevices E a w) in
  match fst (readDevices E a w) with
  | inl err => (Some err, w1)
  | inr i =>
      match open_answer E (cacheFile a) O_CREATE_RDWR_TRUNC
                        (w_files w1 (cacheFile a)) with
      | Some err =>
          (Some err,
           more_log w1 [EvLock;
                        EvOpenFile (cacheFile a) O_CREATE_RDWR_TRUNC (Some err);
                        EvUnlock])
      | None =>
          let i' := if add then Devices_add i device else Devices_remove i device in
          (encode_result (snd (json_Encode E i')),
           more_log (with_file (with_file w1 (cacheFile a) []) (cacheFile a)
                               (fst (json_Encode E i')))
                    [EvLock;
                     EvOpenFile (cacheFile a) O_CREATE_RDWR_TRUNC None;
                     EvEncode (cacheFile a) i' (snd (json_Encode E i'));
                     EvFileClose (cacheFile a);
                     EvUnlock])
      end
  end.
Proof.
  unfold writeDevice at 1. unfold io_bind at 1.
  destruct (readDevices E a w) as [[err|i] w1]; cbn [fst snd]; [reflexivity|].
  unfold defer, io_bind, io_ret, emit, os_OpenFile, Encoder_Encode, more_log,
    with_file.
  cbn [w_files w_net w_log].
  destruct (open_answer E (cacheFile a) O_CREATE_RDWR_TRUNC (w_files w1 (cacheFile a)))
    as [oe|].
  - cbn [w_files w_net w_log]. now rewrite <- !app_assoc.
  - cbn [w_files w_net w_log]. rewrite put_file_same. cbn [content app].
    destruct (json_Encode E (if add then Devices_add i device
                             else Devices_remove i device)) as [bs eerr].
    destruct eerr as [[|m|m]|];
      cbn [fst snd w_files w_net w_log encode_result is_EOF negb];
      rewrite <- !app_assoc; reflexivity.
Qed.

(** What one call of [writeDevice] does to the world, on every path. *)
Lemma writeDevice_spec (a : api) (device : Device) (add : bool) (w : World) :
  exists l : list api_event,
    w_log (snd (writeDevice E a device add w)) = w_log w ++ l /\
    w_net (snd (writeDevice E a device add w)) = w_net w /\
    (forall n, n <> cacheFile a ->
               w_files (snd (writeDevice E a device add w)) n = w_files w n) /\
    locks_after l 0 false = Some (0, false) /\
    (forall k, files_open_after l k = Some k) /\
    wakes l = [] /\ statuses l = [] /\ write_opens l <= 1.
Proof.
  rewrite writeDevice_run.
  destruct (readDevices_spec a w)
    as (l1 & HL & HN & _ & _ & HO & HK & HF & HW & HS & HWO & _).
  cbv zeta.
  destruct (fst (readDevices E a w)) as [err|i].
  - exists l1. cbn [snd]. repeat split; auto. lia.
  - destruct (open_answer E (cacheFile a) O_CREATE_RDWR_TRUNC
                          (w_files (snd (readDevices E a w)) (cacheFile a))) as [oe|];
      cbn [snd more_log with_file w_log w_net w_files]; rewrite HL, HN, <- app_assoc.
    + eexists. split; [reflexivity|]. split; [reflexivity|].
      split; [intros n Hn; now apply HO|].
      rewrite locks_after_app, HK, wakes_app, statuses_app, write_opens_app, HW, HS, HWO.
      split; [reflexivity|].
      split; [intros k; now rewrite files_open_after_app, HF|].
      repeat split; simpl; lia.
    + eexists. split; [reflexivity|]. split; [reflexivity|].
      split; [intros n Hn; rewrite !put_file_other by exact Hn; now apply HO|].
      rewrite locks_after_app, HK, wakes_app, statuses_app, write_opens_app, HW, HS, HWO.
      split; [reflexivity|].
      split; [intros k; now rewrite files_open_after_app, HF|].
      repeat split; simpl; lia.
Qed.

End StoreFacts.

(** ** Facts about the handler *)

Section HandlerFacts.

Variable P : Platform.
Variable E : Env.
Variable a : api.
Variable r : Request.
Variable w : World.

Lemma handler_GET :
  Method r = "GET"%string ->
  defaultHandler P E a r w =
  (match fst (readDevices E a w) with
   | inl err => (None, Some (error_500 err))
   | inr i => (Some i, None)
   end,
   more_log (snd (readDevices E a w)) [EvBodyClose]).
Proof.
  intros M.
  assert (G : (Method r =? MethodGet)%string = true) by (rewrite M; reflexivity).
  unfold defaultHandler, defer. rewrite G.
  unfold io_bind at 1 2.
  destruct (readDevices E a w) as [[err|i] w1]; reflexivity.
Qed.

Lemma handler_not_allowed :
  Method r <> "GET"%string -> Method r <> "POST"%string ->
  Method r <> "DELETE"%string ->
  defaultHandler P E a r w =
  ((None, Some (error_method (Method r))), more_log w [EvBodyClose]).
Proof.
  intros G Po D. unfold defaultHandler, defer, MethodGet, MethodPost, MethodDelete.
  apply String.eqb_neq in G, Po, D. rewrite G, Po, D. reflexivity.
Qed.

Lemma handler_malformed (e : ferror) :
  Method r = "POST"%string \/ Method r = "DELETE"%string ->
  json_Decode E (Body r) = inl e ->
  defaultHandler P E a r w = ((None, Some error_malformed), more_log w [EvBodyClose]).
Proof.
  intros M D.
  assert (G : (Method r =? MethodGet)%string = false)
    by (destruct M as [M|M]; rewrite M; reflexivity).
  assert (A : ((Method r =? MethodPost) || (Method r =? MethodDelete))%string = true)
    by (destruct M as [M|M]; rewrite M; reflexivity).
  unfold defaultHandler, defer. rewrite G, A, D. reflexivity.
Qed.

Lemma handler_POST_invalid (device : Device) (e : error) :
  Method r = "POST"%string ->
  json_Decode E (Body r) = inr device ->
  ParseMAC P (MACAddress device) = inl e ->
  defaultHandler P E a r w =
  ((None, Some (error_invalid_mac (MACAddress device))), more_log w [EvBodyClose]).
Proof.
  intros M D HM.
  assert (G : (Method r =? MethodGet)%string = false) by (rewrite M; reflexivity).
  assert (A : (Method r =? MethodPost)%string = true) by (rewrite M; reflexivity).
  unfold defaultHandler, defer. rewrite G, A, D, HM. reflexivity.
Qed.

Lemma handler_POST_wake_failed (device : Device) (hw : HardwareAddr)
      (e : error) (t : list event) :
  Method r = "POST"%string ->
  json_Decode E (Body r) = inr device ->
  ParseMAC P (MACAddress device) = inr hw ->
  wake a (SourceIP a) hw (w_net w) = (Some e, t) ->
  defaultHandler P E a r w =
  ((None, Some (error_wake_failed (MACAddress device))),
   more_log (after_wake w (SourceIP a) hw (Some e) t) [EvBodyClose]).
Proof.
  intros M D HM HW.
  assert (G : (Method r =? MethodGet)%string = false) by (rewrite M; reflexivity).
  assert (A : (Method r =? MethodPost)%string = true) by (rewrite M; reflexivity).
  unfold defaultHandler, defer. rewrite G, A, D, HM. cbn [orb].
  unfold io_bind, call_wake. rewrite HW. reflexivity.
Qed.

Lemma handler_POST_woken (device : Device) (hw : HardwareAddr) (t : list event) :
  Method r = "POST"%string ->
  json_Decode E (Body r) = inr device ->
  ParseMAC P (MACAddress device) = inr hw ->
  wake a (SourceIP a) hw (w_net w) = (None, t) ->
  defaultHandler P E a r w =
  after_write (writeDevice E a device true (after_wake w (SourceIP a) hw None t)).
Proof.
  intros M D HM HW.
  assert (G : (Method r =? MethodGet)%string = false) by (rewrite M; reflexivity).
  assert (A : (Method r =? MethodPost)%string = true) by (rewrite M; reflexivity).
  unfold defaultHandler, defer. rewrite G, A, D, HM. cbn [orb].
  unfold io_bind at 1 2 3 4. unfold call_wake. rewrite HW.
  unfold io_ret at 1. fold (after_wake w (SourceIP a) hw None t).
  unfold after_write, io_bind.
  destruct (writeDevice E a device true (after_wake w (SourceIP a) hw None t))
    as [[err|] w2]; cbn [fst snd]; unfold io_ret, emit, more_log; cbn [w_net w_files w_log].
  - reflexivity.
  - now rewrite <- app_assoc.
Qed.

Lemma handler_DELETE (device : Device) :
  Method r = "DELETE"%string ->
  json_Decode E (Body r) = inr device ->
  defaultHandler P E a r w = after_write (writeDevice E a device false w).
Proof.
  intros M D.
  assert (G : (Method r =? MethodGet)%string = false) by (rewrite M; reflexivity).
  assert (A : (Method r =? MethodPost)%string = false) by (rewrite M; reflexivity).
  assert (B : (Method r =? MethodDelete)%string = true) by (rewrite M; reflexivity).
  unfold defaultHandler, defer. rewrite G, A, B, D. cbn [orb].
  unfold io_bind at 1 2 3. unfold io_ret at 1.
  unfold after_write, io_bind.
  destruct (writeDevice E a device false w)
    as [[err|] w2]; cbn [fst snd]; unfold io_ret, emit, more_log; cbn [w_net w_files w_log].
  - reflexivity.
  - now rewrite <- app_assoc.
Qed.

Lemma after_write_spec (device : Device) (add : bool) (w0 : World) :
  exists l : list api_event,
    w_log (snd (after_write (writeDevice E a device add w0)))
    = w_log w0 ++ l ++ [EvBodyClose] /\
    w_net (snd (after_write (writeDevice E a device add w0))) = w_net w0 /\
    locks_after l 0 false = Some (0, false) /\
    files_open_after l 0 = Some 0 /\
    wakes l = [] /\
    statuses l
    = (if returned_nothing (fst (after_write (writeDevice E a device add w0)))
       then [204%Z] else []) /\
    fst (fst (after_write (writeDevice E a device add w0))) = None.
Proof.
  destruct (writeDevice_spec E a device add w0)
    as (l & HL & HN & _ & HK & HF & HW & HS & _).
  unfold after_write.
  destruct (fst (writeDevice E a device add w0)) as [err|];
    cbn [fst snd more_log w_log w_net returned_nothing]; rewrite HL, HN.
  - exists l. rewrite <- app_assoc. repeat split; auto.
  - exists (l ++ [EvWriteHeader 204]). rewrite <- !app_assoc.
    rewrite locks_after_app, HK, files_open_after_app, HF, wakes_app, HW,
      statuses_app, HS.
    repeat split; auto.
Qed.

(** What one call of the handler does, on every path. *)
Lemma handler_spec :
  exists l : list api_event,
    w_log (snd (defaultHandler P E a r w)) = w_log w ++ l ++ [EvBodyClose] /\
    locks_after l 0 false = Some (0, false) /\
    files_open_after l 0 = Some 0 /\
    statuses l
    = (if returned_nothing (fst (defaultHandler P E a r w)) then [204%Z] else []) /\
    length (wakes l) <= 1 /\
    (Method r <> "POST"%string ->
     wakes l = [] /\ w_net (snd (defaultHandler P E a r w)) = w_net w).
Proof.
  destruct (String.eqb_spec (Method r) "GET") as [G|G].
  { rewrite (handler_GET G).
    destruct (readDevices_spec E a w)
      as (l & HL & HN & _ & _ & _ & HK & HF & HW & HS & _).
    exists l. cbn [fst snd more_log w_log w_net]. rewrite HL, HN, HW, HS, <- app_assoc.
    repeat split; auto; try congruence.
    destruct (fst (readDevices E a w)); reflexivity. }
  destruct (String.eqb_spec (Method r) "POST") as [Po|Po].
  { destruct (json_Decode E (Body r)) as [e|device] eqn:D.
    { rewrite (handler_malformed e (or_introl Po) D).
      exists []. cbn. repeat split; auto; try congruence. }
    destruct (ParseMAC P (MACAddress device)) as [e|hw] eqn:HM.
    { rewrite (handler_POST_invalid device e Po D HM).
      exists []. cbn. repeat split; auto; try congruence. }
    destruct (wake a (SourceIP a) hw (w_net w)) as [[e|] t] eqn:HW.
    { rewrite (handler_POST_wake_failed device hw e t Po D HM HW).
      exists [EvWake (SourceIP a) hw (Some e)]. cbn.
      rewrite <- app_assoc. repeat split; auto; try congruence. }
    rewrite (handler_POST_woken device hw t Po D HM HW).
    destruct (after_write_spec device true (after_wake w (SourceIP a) hw None t))
      as (l & HL & _ & HK & HF & HWk & HS & _).
    exists (EvWake (SourceIP a) hw None :: l).
    rewrite HL. cbn [after_wake w_log]. rewrite <- app_assoc.
    cbn [app locks_after files_open_after statuses wakes length].
    rewrite HWk, HS. repeat split; auto; try congruence. }
  destruct (String.eqb_spec (Method r) "DELETE") as [De|De].
  { destruct (json_Decode E (Body r)) as [e|device] eqn:D.
    { rewrite (handler_malformed e (or_intror De) D).
      exists []. cbn. repeat split; auto; try congruence. }
    rewrite (handler_DELETE device De D).
    destruct (after_write_spec device false w)
      as (l & HL & HN & HK & HF & HWk & HS & _).
    exists l. rewrite HL, HWk, HS. repeat split; auto; try congruence. }
  rewrite (handler_not_allowed G Po De).
  exists []. cbn. repeat split; auto; try congruence.
Qed.

End HandlerFacts.

(** ** The cache file's properties *)

Section StoreProperties.



(** X14.  When the cache file is missing or empty, and the open and the read
    succeed, [readDevices] returns the empty list without consulting the
    JSON decoder, and the file exists afterwards, empty: reading creates it. *)
Theorem readDevices_creates_missing_file (E : Env) (a : api) (w : World) :
  content (w_files w (cacheFile a)) = [] ->
  open_answer E (cacheFile a) O_CREATE_RDONLY (w_files w (cacheFile a)) = None ->
  readall_answer E [] = None ->
  fst (readDevices E a w) = inr {| Devices_Devices := Some [] |} /\
  w_files (snd (readDevices E a w)) (cacheFile a) = Some [].
Proof.
  intros C O R.
  assert (H : fst (readDevices E a w) = inr {| Devices_Devices := Some [] |}).
  { rewrite readDevices_result; rewrite ?C; auto. }
  split; [exact H|].
  destruct (readDevices_spec E a w) as (_ & _ & _ & _ & _ & _ & _ & _ & _ & _ & _ & S).
  destruct (S _ H) as [_ F]. now rewrite F, C.
Qed.

Lemma readDevices_creates_missing_file_witness :
  w_files world0 (cacheFile api0) = None /\
  fst (readDevices env_ok api0 world0) = inr {| Devices_Devices := Some [] |} /\
  w_files (snd (readDevices env_ok api0 world0)) (cacheFile api0) = Some [].
Proof.
  split; [reflexivity|].
  apply (readDevices_creates_missing_file env_ok api0 world0); reflexivity.
Defined.

(** X15.  [readDevices] only reads: it makes no network call and no call of
    [wake], never opens a file for writing, leaves every existing file as it
    is and the bytes of every file unchanged, whatever the environment
    answers. *)
Theorem readDevices_reads_only (E : Env) (a : api) (w : World) :
  exists l : list api_event,
    w_log (snd (readDevices E a w)) = w_log w ++ l /\
    w_net (snd (readDevices E a w)) = w_net w /\
    wakes l = [] /\ write_opens l = 0 /\
    (forall n c, w_files w n = Some c -> w_files (snd (readDevices E a w)) n = Some c) /\
    (forall n, content (w_files (snd (readDevices E a w)) n) = content (w_files w n)).
Proof.
  destruct (readDevices_spec E a w)
    as (l & HL & HN & HC & HS & _ & _ & _ & HW & _ & HWO & _).
  exists l. repeat split; auto.
Qed.

(** X16.  When [readDevices] fails, or the open for writing fails, [writeDevice]
    returns that error before anything is truncated: the bytes of every file
    are what they were. *)
Theorem writeDevice_fails_before_truncating (E : Env) (a : api) (device : Device)
        (add : bool) (w : World) (e : ferror) :
  fst (readDevices E a w) = inl e \/
  ((exists i, fst (readDevices E a w) = inr i) /\
   open_answer E (cacheFile a) O_CREATE_RDWR_TRUNC
               (Some (content (w_files w (cacheFile a)))) = Some e) ->
  fst (writeDevice E a device add w) = Some e /\
  forall n, content (w_files (snd (writeDevice E a device add w)) n)
            = content (w_files w n).
Proof.
  intros H. rewrite writeDevice_run. cbv zeta.
  destruct (readDevices_spec E a w) as (_ & _ & _ & HC & _ & _ & _ & _ & _ & _ & _ & S).
  destruct H as [R | [[i R] O]]; rewrite R.
  - split; [reflexivity | exact HC].
  - destruct (S i R) as [_ F]. rewrite F, O. split; [reflexivity | exact HC].
Qed.

Lemma writeDevice_fails_before_truncating_witness :
  fst (readDevices env_read_only api0 world_one_device)
  = inr {| Devices_Devices := Some [device_aabb] |} /\
  fst (writeDevice env_read_only api0 device_aabb false world_one_device)
  = Some (OSError "open devices.json: read-only file system") /\
  forall n, content (w_files (snd (writeDevice env_read_only api0 device_aabb false
                                               world_one_device)) n)
            = content (w_files world_one_device n).
Proof.
  split; [reflexivity|].
  apply (writeDevice_fails_before_truncating env_read_only api0 device_aabb false
           world_one_device).
  right. split; [eexists; reflexivity | reflexivity].
Defined.



(** X18.  [writeDevice] truncates the file before it encodes.  When the encoder
    then fails having written nothing, [writeDevice] returns the error, the
    file is left empty, and the next [readDevices] returns the empty list:
    the devices stored before are gone. *)
Theorem writeDevice_failed_encode_loses_list (E : Env) (a : api) (device : Device)
        (add : bool) (w : World) (i : Devices) (err : ferror) :
  fst (readDevices E a w) = inr i ->
  open_answer E (cacheFile a) O_CREATE_RDWR_TRUNC
              (Some (content (w_files w (cacheFile a)))) = None ->
  json_Encode E (if add then Devices_add i device else Devices_remove i device)
  = ([], Some err) ->
  is_EOF err = false ->
  open_answer E (cacheFile a) O_CREATE_RDONLY (Some []) = None ->
  readall_answer E [] = None ->
  fst (writeDevice E a device add w) = Some err /\
  w_files (snd (writeDevice E a device add w)) (cacheFile a) = Some [] /\
  fst (readDevices E a (snd (writeDevice E a device add w)))
  = inr {| Devices_Devices := Some [] |}.
Proof.
  intros R O En NE O2 R2.
  destruct (readDevices_spec E a w) as (_ & _ & _ & _ & _ & _ & _ & _ & _ & _ & _ & S).
  destruct (S i R) as [_ F].
  rewrite writeDevice_run. cbv zeta. rewrite R, F, O, En.
  cbn [fst snd encode_result]. rewrite NE. cbn [negb].
  assert (FB : forall l w1, w_files (more_log (with_file (with_file w1 (cacheFile a) [])
                                                         (cacheFile a) []) l)
                                    (cacheFile a) = Some [])
    by (intros; cbn [more_log with_file w_files]; apply put_file_same).
  split; [reflexivity|]. split; [apply FB|].
  rewrite readDevices_result; rewrite FB; auto.
Qed.

Lemma writeDevice_failed_encode_loses_list_witness :
  fst (readDevices env_encode_fails api0 world_one_device)
  = inr {| Devices_Devices := Some [device_aabb] |} /\
  fst (writeDevice env_encode_fails api0 {| MACAddress := "11:22:33:44:55:66" |}
                   true world_one_device)
  = Some (JSONError "json: encoding failed") /\
  w_files (snd (writeDevice env_encode_fails api0
                            {| MACAddress := "11:22:33:44:55:66" |}
                            true world_one_device)) (cacheFile api0) = Some [] /\
  fst (readDevices env_encode_fails api0
                   (snd (writeDevice env_encode_fails api0
                                     {| MACAddress := "11:22:33:44:55:66" |}
                                     true world_one_device)))
  = inr {| Devices_Devices := Some [] |}.
Proof.
  split; [reflexivity|].
  apply (writeDevice_failed_encode_loses_list env_encode_fails api0
           {| MACAddress := "11:22:33:44:55:66" |} true world_one_device
           {| Devices_Devices := Some [device_aabb] |}
           (JSONError "json: encoding failed")); reflexivity.
Defined.

End StoreProperties.

(** ** The handler's properties *)

Section HandlerProperties.

(** A [POST] with an address that parses: what the call of [wake] leaves. *)
Lemma handler_POST_wake (P : Platform) (E : Env) (a : api) (r : Request) (w : World)
      (device : Device) (hw : HardwareAddr) :
  Method r = "POST"%string ->
  json_Decode E (Body r) = inr device ->
  ParseMAC P (MACAddress device) = inr hw ->
  exists l : list api_event,
    w_log (snd (defaultHandler P E a r w))
    = w_log w ++ EvWake (SourceIP a) hw (fst (wake a (SourceIP a) hw (w_net w))) :: l /\
    wakes l = [] /\
    w_net (snd (defaultHandler P E a r w)) = snd (wake a (SourceIP a) hw (w_net w)) /\
    (forall e, fst (wake a (SourceIP a) hw (w_net w)) = Some e ->
               l = [EvBodyClose] /\
               fst (defaultHandler P E a r w)
               = (None, Some (error_wake_failed (MACAddress device))) /\
               w_files (snd (defaultHandler P E a r w)) = w_files w).
Proof.
  intros M D HM.
  destruct (wake a (SourceIP a) hw (w_net w)) as [[e|] t] eqn:HW; cbn [fst snd].
  - rewrite (handler_POST_wake_failed P E a r w device hw e t M D HM HW).
    exists [EvBodyClose]. cbn [fst snd more_log after_wake w_log w_net w_files].
    rewrite <- app_assoc. repeat split; auto.
  - rewrite (handler_POST_woken P E a r w device hw t M D HM HW).
    destruct (after_write_spec E a device true (after_wake w (SourceIP a) hw None t))
      as (l & HL & HN & _ & _ & HWk & _).
    exists (l ++ [EvBodyClose]). rewrite HL, HN. cbn [after_wake w_log w_net].
    rewrite <- app_assoc, wakes_app, HWk. repeat split; auto; discriminate.
Qed.

(** X19.  A request the handler rejects leaves everything as it was: for a method
    other than GET, POST and DELETE (status 405, with a message that names
    GET and POST only), for a POST or DELETE whose body does not decode
    (status 400), and for a POST whose address does not parse (status 400,
    naming the address), no file is opened, no lock taken and [wake] is not
    called; closing the body is all that happens. *)
Theorem handler_rejects_untouched (P : Platform) (E : Env) (a : api) (r : Request)
        (w : World) :
  (Method r <> "GET"%string -> Method r <> "POST"%string ->
   Method r <> "DELETE"%string ->
   defaultHandler P E a r w =
   ((None, Some {| Error_err := None; Status := 405;
                   Message := ("Invalid method " ++ Method r
                               ++ ", must be GET or POST")%string |}),
    more_log w [EvBodyClose])) /\
  (forall e : ferror,
     Method r = "POST"%string \/ Method r = "DELETE"%string ->
     json_Decode E (Body r) = inl e ->
     defaultHandler P E a r w =
     ((None, Some {| Error_err := None; Status := 400; Message := "Malformed JSON" |}),
      more_log w [EvBodyClose])) /\
  (forall (device : Device) (e : error),
     Method r = "POST"%string ->
     json_Decode E (Body r) = inr device ->
     ParseMAC P (MACAddress device) = inl e ->
     defaultHandler P E a r w =
     ((None, Some {| Error_err := None; Status := 400;
                     Message := ("Invalid MAC address: " ++ MACAddress device)%string |}),
      more_log w [EvBodyClose])).
Proof.
  split; [|split].
  - apply handler_not_allowed.
  - intros e. apply handler_malformed.
  - intros device e. apply handler_POST_invalid.
Qed.

Lemma handler_rejects_untouched_witness :
  defaultHandler platform_ok env_ok api0 (request "PUT" "aa:bb:cc:dd:ee:ff") world0 =
  ((None, Some {| Error_err := None; Status := 405;
                  Message := "Invalid method PUT, must be GET or POST" |}),
   more_log world0 [EvBodyClose]) /\
  defaultHandler platform_ok env_ok api0 (request "DELETE" "") world0 =
  ((None, Some {| Error_err := None; Status := 400; Message := "Malformed JSON" |}),
   more_log world0 [EvBodyClose]) /\
  defaultHandler platform_ok env_ok api0 (request "POST" "not-a-mac") world0 =
  ((None, Some {| Error_err := None; Status := 400;
                  Message := "Invalid MAC address: not-a-mac" |}),
   more_log world0 [EvBodyClose]).
Proof.
  split; [|split].
  - apply (proj1 (handler_rejects_untouched platform_ok env_ok api0
                    (request "PUT" "aa:bb:cc:dd:ee:ff") world0)); discriminate.
  - apply (proj1 (proj2 (handler_rejects_untouched platform_ok env_ok api0
                           (request "DELETE" "") world0)) io_EOF);
      [right; reflexivity | reflexivity].
  - apply (proj2 (proj2 (handler_rejects_untouched platform_ok env_ok api0
                           (request "POST" "not-a-mac") world0))
             {| MACAddress := "not-a-mac" |}
             (AddrError "invalid MAC address" "not-a-mac")); reflexivity.
Defined.

(** X20.  On a [POST] whose address parses, [wake] is the first thing called,
    before any file is touched, exactly once, with the api's [SourceIP] and
    the parsed address.  When it returns an error the handler answers 400
    and stops: no lock is taken, no file is opened, the device is not
    stored. *)
Theorem handler_POST_wakes_first (P : Platform) (E : Env) (a : api) (r : Request)
        (w : World) (device : Device) (hw : HardwareAddr) :
  Method r = "POST"%string ->
  json_Decode E (Body r) = inr device ->
  ParseMAC P (MACAddress device) = inr hw ->
  exists l : list api_event,
    w_log (snd (defaultHandler P E a r w))
    = w_log w ++ EvWake (SourceIP a) hw (fst (wake a (SourceIP a) hw (w_net w))) :: l /\
    wakes l = [] /\
    (forall e, fst (wake a (SourceIP a) hw (w_net w)) = Some e ->
               l = [EvBodyClose] /\
               fst (defaultHandler P E a r w)
               = (None, Some {| Error_err := None; Status := 400;
                                Message := ("Failed to wake device with address "
                                            ++ MACAddress device)%string |}) /\
               w_files (snd (defaultHandler P E a r w)) = w_files w).
Proof.
  intros M D HM.
  destruct (handler_POST_wake P E a r w device hw M D HM) as (l & HL & HW & _ & HE).
  exists l. repeat split; auto; apply (HE e); assumption.
Qed.

Lemma handler_POST_wakes_first_witness :
  fst (wake api_unreachable (SourceIP api_unreachable) mac_aabbccddeeff (w_net world_one_device))
  = Some (NetError "dial udp: network is unreachable") /\
  exists l : list api_event,
    w_log (snd (defaultHandler platform_dial_fails env_ok api_unreachable
                               (request "POST" "aa:bb:cc:dd:ee:ff") world_one_device))
    = w_log world_one_device
      ++ EvWake (SourceIP api_unreachable) mac_aabbccddeeff
                (fst (wake api_unreachable (SourceIP api_unreachable) mac_aabbccddeeff
                           (w_net world_one_device))) :: l /\
    wakes l = [] /\
    (forall e,
       fst (wake api_unreachable (SourceIP api_unreachable) mac_aabbccddeeff
                 (w_net world_one_device)) = Some e ->
       l = [EvBodyClose] /\
       fst (defaultHandler platform_dial_fails env_ok api_unreachable
                           (request "POST" "aa:bb:cc:dd:ee:ff") world_one_device)
       = (None, Some {| Error_err := None; Status := 400;
                        Message := ("Failed to wake device with address "
                                    ++ MACAddress device_aabb)%string |}) /\
       w_files (snd (defaultHandler platform_dial_fails env_ok api_unreachable
                                    (request "POST" "aa:bb:cc:dd:ee:ff") world_one_device))
       = w_files world_one_device).
Proof.
  split; [reflexivity|].
  apply (handler_POST_wakes_first platform_dial_fails env_ok api_unreachable
           (request "POST" "aa:bb:cc:dd:ee:ff") world_one_device device_aabb
           mac_aabbccddeeff); reflexivity.
Defined.

(** X21.  Only a [POST] wakes.  For any other method the handler makes no call of
    [wake] and no network call, and [net.ParseMAC] is not consulted: the
    outcome is the same on every platform, so a [DELETE] removes a device
    whatever its address text is. *)
Theorem handler_only_POST_wakes (P P' : Platform) (E : Env) (a : api) (r : Request)
        (w : World) :
  Method r <> "POST"%string ->
  defaultHandler P E a r w = defaultHandler P' E a r w /\
  w_net (snd (defaultHandler P E a r w)) = w_net w /\
  exists l : list api_event,
    w_log (snd (defaultHandler P E a r w)) = w_log w ++ l /\ wakes l = [].
Proof.
  intros Po. split; [|split].
  - destruct (String.eqb_spec (Method r) "GET") as [G|G];
      [now rewrite !(handler_GET _ E a r w G)|].
    destruct (String.eqb_spec (Method r) "DELETE") as [De|De];
      [|now rewrite !(handler_not_allowed _ E a r w G Po De)].
    destruct (json_Decode E (Body r)) as [e|device] eqn:D.
    + now rewrite !(handler_malformed _ E a r w e (or_intror De) D).
    + now rewrite !(handler_DELETE _ E a r w device De D).
  - destruct (handler_spec P E a r w) as (l & _ & _ & _ & _ & _ & H).
    now apply H.
  - destruct (handler_spec P E a r w) as (l & HL & _ & _ & _ & _ & H).
    exists (l ++ [EvBodyClose]). split; [exact HL|].
    rewrite wakes_app, (proj1 (H Po)). reflexivity.
Qed.

Lemma handler_only_POST_wakes_witness :
  Method (request "DELETE" "not-a-mac") <> "POST"%string /\
  defaultHandler platform_ok env_ok api0 (request "DELETE" "not-a-mac") world_one_device
  = defaultHandler platform_dial_fails env_ok api0 (request "DELETE" "not-a-mac")
                   world_one_device /\
  w_net (snd (defaultHandler platform_ok env_ok api0 (request "DELETE" "not-a-mac")
                             world_one_device)) = w_net world_one_device /\
  exists l : list api_event,
    w_log (snd (defaultHandler platform_ok env_ok api0 (request "DELETE" "not-a-mac")
                               world_one_device)) = w_log world_one_device ++ l /\
    wakes l = [].
Proof.
  split; [discriminate|].
  apply (handler_only_POST_wakes platform_ok platform_dial_fails env_ok api0
           (request "DELETE" "not-a-mac") world_one_device).
  discriminate.
Defined.



(** X23.  The handler writes a status itself in one case only: 204, exactly when
    it returns [(nil, nil)], which it does only for a [POST] or a [DELETE]
    that [writeDevice] completed. *)
Theorem handler_204_iff_stored (P : Platform) (E : Env) (a : api) (r : Request)
        (w : World) :
  (exists l : list api_event,
     w_log (snd (defaultHandler P E a r w)) = w_log w ++ l /\
     statuses l
     = if returned_nothing (fst (defaultHandler P E a r w)) then [204%Z] else []) /\
  (returned_nothing (fst (defaultHandler P E a r w)) = true ->
   (Method r = "POST"%string \/ Method r = "DELETE"%string) /\
   exists device : Device, json_Decode E (Body r) = inr device).
Proof.
  split.
  - destruct (handler_spec P E a r w) as (l & HL & _ & _ & HS & _).
    exists (l ++ [EvBodyClose]). split; [exact HL|].
    rewrite statuses_app, HS. apply app_nil_r.
  - destruct (String.eqb_spec (Method r) "GET") as [G|G].
    { rewrite (handler_GET P E a r w G). cbn [fst].
      destruct (fst (readDevices E a w)); discriminate. }
    destruct (String.eqb_spec (Method r) "POST") as [Po|Po].
    { destruct (json_Decode E (Body r)) as [e|device] eqn:D.
      { rewrite (handler_malformed P E a r w e (or_introl Po) D). discriminate. }
      destruct (ParseMAC P (MACAddress device)) as [e|hw] eqn:HM.
      { rewrite (handler_POST_invalid P E a r w device e Po D HM). discriminate. }
      destruct (wake a (SourceIP a) hw (w_net w)) as [[e|] t] eqn:HW.
      { rewrite (handler_POST_wake_failed P E a r w device hw e t Po D HM HW).
        discriminate. }
      rewrite (handler_POST_woken P E a r w device hw t Po D HM HW).
      intros _. split; [auto|]. exists device. reflexivity. }
    destruct (String.eqb_spec (Method r) "DELETE") as [De|De].
    { destruct (json_Decode E (Body r)) as [e|device] eqn:D.
      { rewrite (handler_malformed P E a r w e (or_intror De) D). discriminate. }
      rewrite (handler_DELETE P E a r w device De D).
      intros _. split; [auto|]. exists device. reflexivity. }
    rewrite (handler_not_allowed P E a r w G Po De). discriminate.
Qed.

(** X24.  Every lock taken is released and every file opened is closed, on every
    path of [readDevices], [writeDevice] and the handler, whatever the
    environment answers; no lock is asked for while the caller holds one
    (the read lock of [readDevices] is released before [writeDevice] takes
    the write lock), and the handler closes the request body last. *)
Theorem api_releases_locks_and_files (P : Platform) (E : Env) (a : api)
        (r : Request) (device : Device) (add : bool) (w : World) :
  (exists l : list api_event,
     w_log (snd (readDevices E a w)) = w_log w ++ l /\
     locks_after l 0 false = Some (0, false) /\
     files_open_after l 0 = Some 0) /\
  (exists l : list api_event,
     w_log (snd (writeDevice E a device add w)) = w_log w ++ l /\
     locks_after l 0 false = Some (0, false) /\
     files_open_after l 0 = Some 0) /\
  (exists l : list api_event,
     w_log (snd (defaultHandler P E a r w)) = w_log w ++ l ++ [EvBodyClose] /\
     locks_after l 0 false = Some (0, false) /\
     files_open_after l 0 = Some 0).
Proof.
  split; [|split].
  - destruct (readDevices_spec E a w) as (l & HL & _ & _ & _ & _ & HK & HF & _).
    exists l. auto.
  - destruct (writeDevice_spec E a device add w) as (l & HL & _ & _ & HK & HF & _).
    exists l. auto.
  - destruct (handler_spec P E a r w) as (l & HL & HK & HF & _).
    exists l. auto.
Qed.

(** X25.  On the api [New] makes, a [POST] with an address of 6 bytes, on a
    platform where the dial succeeds, puts exactly one datagram on the
    network: the magic packet of the parsed address, sent to 255.255.255.255
    port 9 with no local address bound, since [New] leaves [SourceIP] nil.
    This holds whether or not the device is then stored. *)
Theorem New_POST_sends_magic_packet (P : Platform) (E : Env) (name : string)
        (r : Request) (w : World) (device : Device) (hw : HardwareAddr) :
  Method r = "POST"%string ->
  json_Decode E (Body r) = inr device ->
  ParseMAC P (MACAddress device) = inr hw ->
  length hw = 6 ->
  dial P None {| addr_IP := IPv4 Byte.xff Byte.xff Byte.xff Byte.xff;
                 Port := 9; Zone := "" |} = None ->
  exists t' : list event,
    w_net (snd (defaultHandler P E (New P name) r w)) = w_net w ++ t' /\
    dials t' = [("udp"%string, None,
                 {| addr_IP := IPv4 Byte.xff Byte.xff Byte.xff Byte.xff;
                    Port := 9; Zone := "" |})] /\
    datagrams t'
    = [({| LocalAddr := None;
           RemoteAddr := {| addr_IP := IPv4 Byte.xff Byte.xff Byte.xff Byte.xff;
                            Port := 9; Zone := "" |} |},
        NewMagicPacket hw)] /\
    IsMagicPacket (NewMagicPacket hw) = Some true.
Proof.
  intros M D HM Hh HD.
  destruct (handler_POST_wake P E (New P name) r w device hw M D HM)
    as (_ & _ & _ & HN & _).
  rewrite HN. cbn [New wake SourceIP].
  change (dial P (wake_laddr None) wake_raddr = None) in HD.
  assert (V : IsMagicPacket (NewMagicPacket hw) = Some true).
  { apply IsMagicPacket_true_iff.
    rewrite (NewMagicPacket_first_block hw Hh), NewMagicPacket_length, Hh.
    rewrite NewMagicPacket_eq. repeat split. }
  destruct (Wake_cases P None hw)
    as [(e & D') | [(_ & n & W & N) | (_ & n & err & W & N)]].
  - rewrite HD in D'. discriminate.
  - rewrite (Wake_short P None hw (w_net w) n HD W N).
    eexists. split; [reflexivity|]. repeat split; auto.
  - rewrite (Wake_not_short P None hw (w_net w) n err HD W N).
    eexists. split; [reflexivity|]. repeat split; auto.
Qed.

Lemma New_POST_sends_magic_packet_witness :
  json_Decode env_ok (Body (request "POST" "aa:bb:cc:dd:ee:ff")) = inr device_aabb /\
  ParseMAC platform_ok (MACAddress device_aabb) = inr mac_aabbccddeeff /\
  exists t' : list event,
    w_net (snd (defaultHandler platform_ok env_ok (New platform_ok "devices.json")
                               (request "POST" "aa:bb:cc:dd:ee:ff") world0))
    = w_net world0 ++ t' /\
    dials t' = [("udp"%string, None,
                 {| addr_IP := IPv4 Byte.xff Byte.xff Byte.xff Byte.xff;
                    Port := 9; Zone := "" |})] /\
    datagrams t'
    = [({| LocalAddr := None;
           RemoteAddr := {| addr_IP := IPv4 Byte.xff Byte.xff Byte.xff Byte.xff;
                            Port := 9; Zone := "" |} |},
        NewMagicPacket mac_aabbccddeeff)] /\
    IsMagicPacket (NewMagicPacket mac_aabbccddeeff) = Some true.
Proof.
  split; [reflexivity | split; [reflexivity|]].
  apply (New_POST_sends_magic_packet platform_ok env_ok "devices.json"
           (request "POST" "aa:bb:cc:dd:ee:ff") world0 device_aabb mac_aabbccddeeff);
    reflexivity.
Defined.

(** X26.  [ServeHTTP] around the handler writes at most one status per request:
    the error's [Status] when the handler returned an error (and the error
    marshals), 204 when it returned [(nil, nil)], and none, leaving the
    default, when it returned the device list.  It panics exactly when
    [json.Marshal] fails on what it has to send.  Around [notFoundHandler]
    the status is 404. *)
Theorem ServeHTTP_writes_one_status (J : Marshal) (P : Platform) (E : Env)
        (a : api) (r : Request) (w : World) :
  (exists l : list api_event,
     w_log (snd (ServeHTTP J (defaultHandler P E a r) w)) = w_log w ++ l /\
     length (statuses l) <= 1 /\
     statuses l
     = match fst (defaultHandler P E a r w) with
       | (_, Some e) =>
           match marshal_Error J (Status e) (Message e) with
           | inr _ => [Status e]
           | inl _ => []
           end
       | (None, None) => [204%Z]
       | (Some _, None) => []
       end /\
     (fst (ServeHTTP J (defaultHandler P E a r) w) = None <->
      match fst (defaultHandler P E a r w) with
      | (_, Some e) => exists err, marshal_Error J (Status e) (Message e) = inl err
      | (Some d, None) => exists err, marshal_Devices J d = inl err
      | (None, None) => False
      end)) /\
  (forall out : list byte,
     marshal_Error J 404 "Resource not found" = inr out ->
     ServeHTTP J notFoundHandler w
     = (Some tt, more_log w [EvWriteHeader 404; EvRespWrite out])).
Proof.
  split.
  - destruct (handler_spec P E a r w) as (lh & HL & _ & _ & HS & _).
    assert (EQ : ServeHTTP J (defaultHandler P E a r) w
                 = ServeHTTP_respond J (fst (defaultHandler P E a r w))
                                     (snd (defaultHandler P E a r w))).
    { unfold ServeHTTP, io_bind. now destruct (defaultHandler P E a r w). }
    rewrite EQ. clear EQ.
    destruct (defaultHandler P E a r w) as [[data e] w1]. cbn [fst snd] in *.
    assert (SB : statuses (lh ++ [EvBodyClose]) = statuses lh)
      by (rewrite statuses_app; apply app_nil_r).
    unfold ServeHTTP_respond, io_bind, io_ret, emit.
    destruct e as [e|].
    + assert (HS' : statuses lh = [])
        by (rewrite HS; destruct data; reflexivity).
      destruct (Error_err e) as [err|];
        destruct (marshal_Error J (Status e) (Message e)) as [me|out];
        cbn [fst snd w_log]; rewrite HL, <- ?app_assoc;
        (eexists; split; [reflexivity|]);
        rewrite ?statuses_app, HS'; cbn [statuses app length];
        (split; [lia|]); (split; [destruct data; reflexivity|]);
        destruct data;
        (split;
         [first [discriminate | intros _; eauto]
         | first [intros [x Hx]; discriminate Hx | intros _; reflexivity]]).
    + destruct data as [d|].
      * assert (HS' : statuses lh = []) by (rewrite HS; reflexivity).
        destruct (marshal_Devices J d) as [me|out];
          cbn [fst snd w_log]; rewrite HL, <- ?app_assoc;
          (eexists; split; [reflexivity|]);
          rewrite ?statuses_app, HS'; cbn [statuses app length];
          (split; [lia|]); (split; [reflexivity|]);
          (split;
           [first [discriminate | intros _; eauto]
           | first [intros [x Hx]; discriminate Hx | intros _; reflexivity]]).
      * assert (HS' : statuses lh = [204%Z]) by (rewrite HS; reflexivity).
        cbn [fst snd]. rewrite HL.
        exists (lh ++ [EvBodyClose]). rewrite SB, HS'.
        split; [reflexivity|]. split; [simpl; lia|]. split; [reflexivity|].
        split; [discriminate | tauto].
  - intros out M.
    unfold ServeHTTP, ServeHTTP_respond, notFoundHandler, io_bind, io_ret, emit, more_log.
    cbn [Error_err Status Message]. unfold StatusNotFound. rewrite M.
    cbn [w_net w_files w_log]. now rewrite <- app_assoc.
Qed.

End HandlerProperties.
